(** * tutor-voz: the audio streaming and session pipeline of [src/App.tsx]

    A shallow embedding of the audio utilities ([decode], [encode],
    [decodeAudioData], [createBlob]) and of the session callbacks of the
    [App] component ([stopConversation], [sendTextMessage], [onmessage],
    [onerror], [onclose]), followed by the properties the specification
    states about them.

    Conventions of the model.
    - A JavaScript string is the list of its UTF-16 code units.
    - A [Uint8Array] is a [list byte]; an [Int16Array] element is a [Z] in
      the signed 16-bit range, stored through the wrap-around of [ToInt16].
    - Times of the audio clock and audio samples are rationals.  The
      sample conversions of the source only scale by the power of two
      32768, which is exact on IEEE doubles, so the rational model agrees
      with the floating-point code on every finite sample; sums of
      durations are taken exactly.
    - The mutable refs and the React state of the component are the fields
      of one record, threaded explicitly; calls into the browser (starting
      and stopping sources, closing the session, sending) are recorded in
      a trace. *)

From Stdlib.Strings Require Import Byte Ascii String.
From Stdlib Require Import List NArith ZArith QArith Qminmax Qabs Bool Lia Lqa.
Import ListNotations.

Set Implicit Arguments.

(** ** JavaScript values *)

Module Js.

Local Open Scope N_scope.

Definition code_unit := N.
Definition jsstring := list code_unit.

(** Literals for examples: the code units of a Latin-1 string. *)
Definition str (s : string) : jsstring :=
  map N_of_ascii (list_ascii_of_string s).

(** The exceptions the modelled code can raise. *)
Inductive exn : Type :=
| TypeError
| RangeError
| InvalidCharacterError
| NotSupportedError.

Inductive result (A : Type) : Type :=
| Ok (a : A)
| Throw (e : exn).
Arguments Ok {A} a.
Arguments Throw {A} e.

Definition bind {A B : Type} (r : result A) (k : A -> result B) : result B :=
  match r with
  | Ok a => k a
  | Throw e => Throw e
  end.

(** [WhiteSpace] and [LineTerminator] code units of ECMAScript, the ones
    [String.prototype.trim] removes. *)
Definition is_js_space (c : code_unit) : bool :=
  ((9 <=? c) && (c <=? 13)) || (c =? 32) || (c =? 160) || (c =? 5760)
  || ((8192 <=? c) && (c <=? 8202)) || (c =? 8232) || (c =? 8233)
  || (c =? 8239) || (c =? 8287) || (c =? 12288) || (c =? 65279).

Fixpoint trimStart (s : jsstring) : jsstring :=
  match s with
  | [] => []
  | c :: r => if is_js_space c then trimStart r else s
  end.

Definition trimEnd (s : jsstring) : jsstring := rev (trimStart (rev s)).

(** [String.prototype.trim]. *)
Definition trim (s : jsstring) : jsstring := trimEnd (trimStart s).

(** Truthiness of a string: the empty string is falsy. *)
Definition truthy (s : jsstring) : bool :=
  match s with [] => false | _ => true end.

(** The code units of the text ["undefined"], which [+=] appends for a
    missing operand. *)
Definition undefined_text : jsstring := str "undefined"%string.

(** String concatenation with an operand that may be [undefined]. *)
Definition concat_opt (s : jsstring) (t : option jsstring) : jsstring :=
  s ++ match t with Some x => x | None => undefined_text end.

End Js.
Import Js.

(** ** Base64: the browser's [btoa] and [atob] *)

Module Base64.

Local Open Scope N_scope.

(** The base64 alphabet: [A-Z], [a-z], [0-9], [+], [/]. *)
Definition alphabet (i : N) : code_unit :=
  if i <? 26 then 65 + i
  else if i <? 52 then 97 + (i - 26)
  else if i <? 62 then 48 + (i - 52)
  else if i =? 62 then 43
  else 47.

Definition index (c : code_unit) : option N :=
  if (65 <=? c) && (c <=? 90) then Some (c - 65)
  else if (97 <=? c) && (c <=? 122) then Some (c - 97 + 26)
  else if (48 <=? c) && (c <=? 57) then Some (c - 48 + 52)
  else if c =? 43 then Some 62
  else if c =? 47 then Some 63
  else None.

(** The padding character [=]. *)
Definition pad : code_unit := 61.

(** The 6-bit groups of a byte string, three bytes to four groups; a last
    group of one byte gives two, of two bytes gives three. *)
Fixpoint sextets (s : list N) : list N :=
  match s with
  | [] => []
  | [a] => [a / 4; (a mod 4) * 16]
  | [a; b] => [a / 4; (a mod 4) * 16 + b / 16; (b mod 16) * 4]
  | a :: b :: c :: rest =>
      a / 4 :: (a mod 4) * 16 + b / 16 :: (b mod 16) * 4 + c / 64 :: c mod 64
        :: sextets rest
  end.

Definition padding (len : nat) : list code_unit :=
  match (len mod 3)%nat with
  | 1%nat => [pad; pad]
  | 2%nat => [pad]
  | _ => []
  end.

(** [btoa]: throws [InvalidCharacterError] when a code unit exceeds 255. *)
Definition btoa (s : jsstring) : result jsstring :=
  if forallb (fun c => c <? 256) s
  then Ok (map alphabet (sextets s) ++ padding (length s))
  else Throw InvalidCharacterError.

(** ASCII whitespace, which [atob] removes first: TAB, LF, FF, CR, SPACE. *)
Definition is_ascii_whitespace (c : code_unit) : bool :=
  (c =? 9) || (c =? 10) || (c =? 12) || (c =? 13) || (c =? 32).

(** One [=] off the front of a reversed string. *)
Definition drop_pad (r : jsstring) : jsstring :=
  match r with
  | c :: r' => if c =? pad then r' else r
  | [] => []
  end.

(** When the length is a multiple of four, one or two trailing [=] are
    removed. *)
Definition strip_padding (d : jsstring) : jsstring :=
  if (length d mod 4 =? 0)%nat then rev (drop_pad (drop_pad (rev d))) else d.

Fixpoint indices (d : jsstring) : option (list N) :=
  match d with
  | [] => Some []
  | c :: r =>
      match index c, indices r with
      | Some i, Some l => Some (i :: l)
      | _, _ => None
      end
  end.

(** Four groups give three bytes; a rest of two groups gives one byte and
    a rest of three gives two, the spare bits being dropped. *)
Fixpoint unsextets (l : list N) : list N :=
  match l with
  | a :: b :: c :: d :: rest =>
      a * 4 + b / 16 :: (b mod 16) * 16 + c / 4 :: (c mod 4) * 64 + d
        :: unsextets rest
  | [a; b; c] => [a * 4 + b / 16; (b mod 16) * 16 + c / 4]
  | [a; b] => [a * 4 + b / 16]
  | _ => []
  end.

(** [atob], the forgiving base64 decoding of the HTML standard: throws
    [InvalidCharacterError] on a length of 1 modulo 4 or on a character
    outside the alphabet. *)
Definition atob (data : jsstring) : result jsstring :=
  let d := strip_padding (filter (fun c => negb (is_ascii_whitespace c)) data) in
  if (length d mod 4 =? 1)%nat then Throw InvalidCharacterError
  else match indices d with
       | Some l => Ok (unsextets l)
       | None => Throw InvalidCharacterError
       end.

End Base64.

(** ** The audio utilities of [App.tsx] *)

(** Storing a number into a [Uint8Array] keeps it modulo 256. *)
Definition uint8_of_N (n : N) : byte :=
  match Byte.of_N (n mod 256)%N with
  | Some b => b
  | None => x00
  end.

(** [decode]: [atob], then [charCodeAt] of every character into a
    [Uint8Array]. *)
Definition decode (base64 : jsstring) : result (list byte) :=
  bind (Base64.atob base64) (fun binaryString =>
  Ok (map uint8_of_N binaryString)).

(** [encode]: [String.fromCharCode] of every byte, then [btoa]. *)
Definition encode (bytes : list byte) : result jsstring :=
  Base64.btoa (map Byte.to_N bytes).

(** *** PCM samples *)

(** Truncation of a rational toward zero. *)
Definition Qtrunc (x : Q) : Z := Z.quot (Qnum x) (Zpos (Qden x)).

(** [ToInt16], the conversion of a number stored into an [Int16Array]:
    truncate, reduce modulo 2^16, read as a signed 16-bit integer. *)
Definition ToInt16 (x : Q) : Z :=
  let int16bit := ((Qtrunc x) mod 65536)%Z in
  if (32768 <=? int16bit)%Z then (int16bit - 65536)%Z else int16bit.

(** The values of an [Int16Array] element. *)
Definition int16_range (n : Z) : Prop := (-32768 <= n <= 32767)%Z.

(** The loop body of [createBlob]: [int16[i] = data[i] * 32768]. *)
Definition toInt16 (s : Q) : Z := ToInt16 (s * 32768).

(** The loop body of [decodeAudioData]: [dataInt16[k] / 32768.0]. *)
Definition toFloat (n : Z) : Q := inject_Z n / 32768.

(** The two bytes of an [Int16Array] element, low byte first. *)
Definition int16_bytes (n : Z) : list byte :=
  let u := Z.to_N (n mod 65536) in
  [uint8_of_N (u mod 256)%N; uint8_of_N (u / 256)%N].

Definition int16_of_bytes (lo hi : byte) : Z :=
  let u := (Z.of_N (Byte.to_N lo) + 256 * Z.of_N (Byte.to_N hi))%Z in
  if (32768 <=? u)%Z then (u - 65536)%Z else u.

(** [new Uint8Array(int16.buffer)]. *)
Definition bytes_of_int16s (l : list Z) : list byte := flat_map int16_bytes l.

(** [new Int16Array(data.buffer)]: a [RangeError] when the byte length is
    odd. *)
Fixpoint int16s_of_bytes (data : list byte) : result (list Z) :=
  match data with
  | [] => Ok []
  | [_] => Throw RangeError
  | lo :: hi :: rest =>
      bind (int16s_of_bytes rest) (fun l => Ok (int16_of_bytes lo hi :: l))
  end.

Record AudioBuffer : Type := {
  numberOfChannels : nat;
  frameCount : nat;
  sampleRate : positive;
  channelData : list (list Q)
}.

(** [AudioBuffer.duration]: the length in frames over the sample rate. *)
Definition duration (b : AudioBuffer) : Q :=
  Z.of_nat (frameCount b) # sampleRate b.

(** The nominal ranges of [createBuffer].  The Web Audio specification
    fixes the ranges every implementation must accept, sample rates from
    8000 to 96000 Hz and up to 32 channels; these are the ranges of the
    model (a browser may accept more). *)
Definition nominalRate (sampleRate : positive) : bool :=
  ((8000 <=? sampleRate) && (sampleRate <=? 96000))%positive.

Definition nominalChannels (numChannels : positive) : bool :=
  (numChannels <=? 32)%positive.

(** [decodeAudioData]: view the bytes as 16-bit samples, create a buffer
    ([createBuffer] takes the frame count as an unsigned integer and
    raises [NotSupportedError] for a length of zero and for a sample rate
    or a channel count outside its nominal range) and fill every channel
    from the interleaved samples.  The component calls it with one channel
    at 24000 Hz. *)
Definition decodeAudioData (data : list byte) (sampleRate : positive)
    (numChannels : positive) : result AudioBuffer :=
  bind (int16s_of_bytes data) (fun dataInt16 =>
  let nc := Pos.to_nat numChannels in
  let frames := (List.length dataInt16 / nc)%nat in
  if (frames =? 0)%nat || negb (nominalRate sampleRate)
     || negb (nominalChannels numChannels)
  then Throw NotSupportedError
  else
    Ok {| numberOfChannels := nc;
          frameCount := frames;
          sampleRate := sampleRate;
          channelData :=
            map (fun channel =>
                   map (fun i => toFloat (nth (i * nc + channel) dataInt16 0%Z))
                       (seq 0 frames))
                (seq 0 nc) |}).

Record Blob : Type := {
  blob_data : jsstring;
  mimeType : jsstring
}.

(** [createBlob]: the frame as 16-bit samples, base64 encoded. *)
Definition createBlob (data : list Q) : result Blob :=
  let int16 := map toInt16 data in
  bind (encode (bytes_of_int16s int16)) (fun text =>
  Ok {| blob_data := text; mimeType := str "audio/pcm;rate=16000" |}).

(** ** Messages of the live session *)

Module Msg.

Record InlineData : Type := { data : option jsstring }.
Record Part : Type := { inlineData : option InlineData }.
Record Content : Type := { parts : option (list Part) }.
Record Transcription : Type := { text : option jsstring }.

Record ServerContent : Type := {
  modelTurn : option Content;
  outputTranscription : option Transcription;
  inputTranscription : option Transcription;
  turnComplete : option bool;
  interrupted : option bool
}.

Record LiveServerMessage : Type := { serverContent : option ServerContent }.

(** Truthiness of an optional boolean field. *)
Definition flag (b : option bool) : bool :=
  match b with Some true => true | _ => false end.

End Msg.

(** ** The component state *)

Inductive ConnectionState : Type :=
| DISCONNECTED
| CONNECTING
| CONNECTED
| ERROR.

Inductive Role : Type := user | model.

Record TranscriptionEntry : Type := {
  role : Role;
  text : jsstring;
  timestamp : N
}.

(** Browser objects are named by numbers. *)
Definition SourceNode := nat.
Definition Session := nat.
Definition Track := nat.

(** Calls on browser objects, in the order they are made. *)
Inductive effect : Type :=
| SourceStart (source : SourceNode) (when : Q) (buffer : AudioBuffer)
| SourceStop (source : SourceNode)
| SessionClose (session : Session)
| SessionSend (session : Session) (text : jsstring)
| TrackStop (track : Track).

Record App : Type := {
  connectionState : ConnectionState;
  transcriptions : list TranscriptionEntry;
  isListening : bool;
  nextStartTimeRef : Q;
  activeSourcesRef : list SourceNode;
  sessionRef : option Session;
  micStreamRef : option (list Track);
  currentOutputTranscriptionRef : jsstring;
  currentInputTranscriptionRef : jsstring;
  createdSources : nat;
  trace : list effect
}.

(** The state of a freshly mounted component. *)
Definition initial : App :=
  {| connectionState := DISCONNECTED;
     transcriptions := [];
     isListening := false;
     nextStartTimeRef := 0;
     activeSourcesRef := [];
     sessionRef := None;
     micStreamRef := None;
     currentOutputTranscriptionRef := [];
     currentInputTranscriptionRef := [];
     createdSources := 0;
     trace := [] |}.

(** Field updates. *)
Definition setConnectionState (c : ConnectionState) (a : App) : App :=
  {| connectionState := c;
     transcriptions := transcriptions a;
     isListening := isListening a;
     nextStartTimeRef := nextStartTimeRef a;
     activeSourcesRef := activeSourcesRef a;
     sessionRef := sessionRef a;
     micStreamRef := micStreamRef a;
     currentOutputTranscriptionRef := currentOutputTranscriptionRef a;
     currentInputTranscriptionRef := currentInputTranscriptionRef a;
     createdSources := createdSources a;
     trace := trace a |}.

Definition setTranscriptions (f : list TranscriptionEntry -> list TranscriptionEntry)
    (a : App) : App :=
  {| connectionState := connectionState a;
     transcriptions := f (transcriptions a);
     isListening := isListening a;
     nextStartTimeRef := nextStartTimeRef a;
     activeSourcesRef := activeSourcesRef a;
     sessionRef := sessionRef a;
     micStreamRef := micStreamRef a;
     currentOutputTranscriptionRef := currentOutputTranscriptionRef a;
     currentInputTranscriptionRef := currentInputTranscriptionRef a;
     createdSources := createdSources a;
     trace := trace a |}.

Definition setIsListening (b : bool) (a : App) : App :=
  {| connectionState := connectionState a;
     transcriptions := transcriptions a;
     isListening := b;
     nextStartTimeRef := nextStartTimeRef a;
     activeSourcesRef := activeSourcesRef a;
     sessionRef := sessionRef a;
     micStreamRef := micStreamRef a;
     currentOutputTranscriptionRef := currentOutputTranscriptionRef a;
     currentInputTranscriptionRef := currentInputTranscriptionRef a;
     createdSources := createdSources a;
     trace := trace a |}.

Definition set_nextStartTime (t : Q) (a : App) : App :=
  {| connectionState := connectionState a;
     transcriptions := transcriptions a;
     isListening := isListening a;
     nextStartTimeRef := t;
     activeSourcesRef := activeSourcesRef a;
     sessionRef := sessionRef a;
     micStreamRef := micStreamRef a;
     currentOutputTranscriptionRef := currentOutputTranscriptionRef a;
     currentInputTranscriptionRef := currentInputTranscriptionRef a;
     createdSources := createdSources a;
     trace := trace a |}.

Definition set_activeSources (l : list SourceNode) (a : App) : App :=
  {| connectionState := connectionState a;
     transcriptions := transcriptions a;
     isListening := isListening a;
     nextStartTimeRef := nextStartTimeRef a;
     activeSourcesRef := l;
     sessionRef := sessionRef a;
     micStreamRef := micStreamRef a;
     currentOutputTranscriptionRef := currentOutputTranscriptionRef a;
     currentInputTranscriptionRef := currentInputTranscriptionRef a;
     createdSources := createdSources a;
     trace := trace a |}.

Definition set_session (s : option Session) (a : App) : App :=
  {| connectionState := connectionState a;
     transcriptions := transcriptions a;
     isListening := isListening a;
     nextStartTimeRef := nextStartTimeRef a;
     activeSourcesRef := activeSourcesRef a;
     sessionRef := s;
     micStreamRef := micStreamRef a;
     currentOutputTranscriptionRef := currentOutputTranscriptionRef a;
     currentInputTranscriptionRef := currentInputTranscriptionRef a;
     createdSources := createdSources a;
     trace := trace a |}.

Definition set_micStream (m : option (list Track)) (a : App) : App :=
  {| connectionState := connectionState a;
     transcriptions := transcriptions a;
     isListening := isListening a;
     nextStartTimeRef := nextStartTimeRef a;
     activeSourcesRef := activeSourcesRef a;
     sessionRef := sessionRef a;
     micStreamRef := m;
     currentOutputTranscriptionRef := currentOutputTranscriptionRef a;
     currentInputTranscriptionRef := currentInputTranscriptionRef a;
     createdSources := createdSources a;
     trace := trace a |}.

Definition set_outputTranscription (s : jsstring) (a : App) : App :=
  {| connectionState := connectionState a;
     transcriptions := transcriptions a;
     isListening := isListening a;
     nextStartTimeRef := nextStartTimeRef a;
     activeSourcesRef := activeSourcesRef a;
     sessionRef := sessionRef a;
     micStreamRef := micStreamRef a;
     currentOutputTranscriptionRef := s;
     currentInputTranscriptionRef := currentInputTranscriptionRef a;
     createdSources := createdSources a;
     trace := trace a |}.

Definition set_inputTranscription (s : jsstring) (a : App) : App :=
  {| connectionState := connectionState a;
     transcriptions := transcriptions a;
     isListening := isListening a;
     nextStartTimeRef := nextStartTimeRef a;
     activeSourcesRef := activeSourcesRef a;
     sessionRef := sessionRef a;
     micStreamRef := micStreamRef a;
     currentOutputTranscriptionRef := currentOutputTranscriptionRef a;
     currentInputTranscriptionRef := s;
     createdSources := createdSources a;
     trace := trace a |}.

(** A call on a browser object. *)
Definition perform (es : list effect) (a : App) : App :=
  {| connectionState := connectionState a;
     transcriptions := transcriptions a;
     isListening := isListening a;
     nextStartTimeRef := nextStartTimeRef a;
     activeSourcesRef := activeSourcesRef a;
     sessionRef := sessionRef a;
     micStreamRef := micStreamRef a;
     currentOutputTranscriptionRef := currentOutputTranscriptionRef a;
     currentInputTranscriptionRef := currentInputTranscriptionRef a;
     createdSources := createdSources a;
     trace := trace a ++ es |}.

(** [createBufferSource]: a new source node. *)
Definition createBufferSource (a : App) : SourceNode * App :=
  (createdSources a,
   {| connectionState := connectionState a;
      transcriptions := transcriptions a;
      isListening := isListening a;
      nextStartTimeRef := nextStartTimeRef a;
      activeSourcesRef := activeSourcesRef a;
      sessionRef := sessionRef a;
      micStreamRef := micStreamRef a;
      currentOutputTranscriptionRef := currentOutputTranscriptionRef a;
      currentInputTranscriptionRef := currentInputTranscriptionRef a;
      createdSources := S (createdSources a);
      trace := trace a |}).

(** [Set.prototype.add] and [Set.prototype.delete] on a set kept in
    insertion order. *)
Definition set_add (x : SourceNode) (l : list SourceNode) : list SourceNode :=
  if existsb (Nat.eqb x) l then l else l ++ [x].

Definition set_delete (x : SourceNode) (l : list SourceNode) : list SourceNode :=
  filter (fun y => negb (Nat.eqb x y)) l.

(** ** The callbacks of [App] *)

(** How a callback ends: it returns, or it throws and leaves the state it
    had reached. *)
Inductive outcome : Type :=
| Returned (a : App)
| Threw (e : exn) (a : App).

Definition final (o : outcome) : App :=
  match o with
  | Returned a => a
  | Threw _ a => a
  end.

Definition and_then (o : outcome) (k : App -> outcome) : outcome :=
  match o with
  | Returned a => k a
  | Threw e a => Threw e a
  end.

Notation "o >>= k" := (and_then o k) (at level 50, left associativity).

(** [stopConversation]. *)
Definition stopConversation (a : App) : App :=
  let a :=
    match sessionRef a with
    | Some session => set_session None (perform [SessionClose session] a)
    | None => a
    end in
  let a :=
    match micStreamRef a with
    | Some tracks => set_micStream None (perform (map TrackStop tracks) a)
    | None => a
    end in
  let a := perform (map SourceStop (activeSourcesRef a)) a in
  let a := set_activeSources [] a in
  let a := setConnectionState DISCONNECTED a in
  setIsListening false a.

(** [sendTextMessage]; [date] is the value of [new Date()].  The ref
    is typed [any] and line 99 calls [send] on whatever [connect] gave:
    [sent] is how that call ends, [None] when it returns and [Some e]
    when it throws [e].  The [Session] of the SDK has the methods
    [sendClientContent], [sendRealtimeInput], [sendToolResponse] and
    [close] and no [send]; on it the call is a [TypeError].  A throw
    leaves the function before [setTranscriptions]. *)
Definition sendTextMessage (sent : option exn) (date : N) (text : jsstring)
    (a : App) : outcome :=
  match sessionRef a, connectionState a with
  | Some session, CONNECTED =>
      match sent with
      | Some e => Threw e a
      | None =>
          let a := perform [SessionSend session text] a in
          Returned
            (setTranscriptions
               (fun prev =>
                  prev ++ [{| role := user; text := text; timestamp := date |}]) a)
      end
  | _, _ => Returned a
  end.

(** [clearHistory]. *)
Definition clearHistory (a : App) : App := setTranscriptions (fun _ => []) a.

(** The [onopen] callback, as far as the component state goes. *)
Definition onopen (a : App) : App :=
  setIsListening true (setConnectionState CONNECTED a).

(** The listener of a source's [ended] event. *)
Definition onended (source : SourceNode) (a : App) : App :=
  set_activeSources (set_delete source (activeSourcesRef a)) a.

(** [message.serverContent?.modelTurn?.parts[0]?.inlineData?.data]: the
    index into [parts] is not optional, so a model turn without [parts] is
    a [TypeError]. *)
Definition base64Audio (message : Msg.LiveServerMessage) : result (option jsstring) :=
  match Msg.serverContent message with
  | None => Ok None
  | Some sc =>
      match Msg.modelTurn sc with
      | None => Ok None
      | Some turn =>
          match Msg.parts turn with
          | None => Throw TypeError
          | Some [] => Ok None
          | Some (part :: _) =>
              match Msg.inlineData part with
              | None => Ok None
              | Some inline => Ok (Msg.data inline)
              end
          end
      end
  end.

(** Lines 160-171 of [onmessage]: create a source for the decoded buffer,
    start it at the cursor, advance the cursor by the buffer's duration
    and add the source to the active set. *)
Definition startSource (audioBuffer : AudioBuffer) (a : App) : App :=
  let (source, a) := createBufferSource a in
  let a := perform [SourceStart source (nextStartTimeRef a) audioBuffer] a in
  let a := set_nextStartTime (nextStartTimeRef a + duration audioBuffer) a in
  set_activeSources (set_add source (activeSourcesRef a)) a.

(** Line 157: the cursor is raised to the current output time. *)
Definition catchUp (currentTime : Q) (a : App) : App :=
  set_nextStartTime (Qmax (nextStartTimeRef a) currentTime) a.

(** The audio part of [onmessage]; the cursor is raised before the payload
    is decoded. *)
Definition handleAudio (currentTime : Q) (message : Msg.LiveServerMessage)
    (a : App) : outcome :=
  match base64Audio message with
  | Throw e => Threw e a
  | Ok None => Returned a
  | Ok (Some payload) =>
      if truthy payload then
        let a := catchUp currentTime a in
        match bind (decode payload) (fun bytes => decodeAudioData bytes 24000 1) with
        | Throw e => Threw e a
        | Ok audioBuffer => Returned (startSource audioBuffer a)
        end
      else Returned a
  end.

(** The transcription part: the output fragment, else the input one. *)
Definition handleTranscriptions (message : Msg.LiveServerMessage) (a : App) : App :=
  match Msg.serverContent message with
  | None => a
  | Some sc =>
      match Msg.outputTranscription sc with
      | Some t =>
          set_outputTranscription
            (concat_opt (currentOutputTranscriptionRef a) (Msg.text t)) a
      | None =>
          match Msg.inputTranscription sc with
          | Some t =>
              set_inputTranscription
                (concat_opt (currentInputTranscriptionRef a) (Msg.text t)) a
          | None => a
          end
      end
  end.

Definition entries (r : Role) (t : jsstring) (date : N) : list TranscriptionEntry :=
  if truthy t then [{| role := r; text := t; timestamp := date |}] else [].

(** The body of [if (message.serverContent?.turnComplete)]. *)
Definition completeTurn (date : N) (a : App) : App :=
  let userText := trim (currentInputTranscriptionRef a) in
  let modelText := trim (currentOutputTranscriptionRef a) in
  let a :=
    if truthy userText || truthy modelText then
      setTranscriptions
        (fun prev => prev ++ entries user userText date ++ entries model modelText date) a
    else a in
  set_outputTranscription [] (set_inputTranscription [] a).

Definition handleTurnComplete (date : N) (message : Msg.LiveServerMessage)
    (a : App) : App :=
  match Msg.serverContent message with
  | Some sc => if Msg.flag (Msg.turnComplete sc) then completeTurn date a else a
  | None => a
  end.

(** The body of [if (message.serverContent?.interrupted)]. *)
Definition interrupt (a : App) : App :=
  let a := perform (map SourceStop (activeSourcesRef a)) a in
  let a := set_activeSources [] a in
  set_nextStartTime 0 a.

Definition handleInterrupted (message : Msg.LiveServerMessage) (a : App) : App :=
  match Msg.serverContent message with
  | Some sc => if Msg.flag (Msg.interrupted sc) then interrupt a else a
  | None => a
  end.

(** The [onmessage] callback run in one piece.  [currentTime] is the
    clock of the output context and [date] the value of [new Date()].
    The handler suspends once, at the [await] of line 159, and only when
    the message carries a payload: this definition is the handler when
    no other callback runs while it is suspended.  The two stretches are
    [onmessage_begin] and [onmessage_resume] below. *)
Definition onmessage (currentTime : Q) (date : N) (message : Msg.LiveServerMessage)
    (a : App) : outcome :=
  handleAudio currentTime message a >>= fun a =>
  let a := handleTranscriptions message a in
  let a := handleTurnComplete date message a in
  Returned (handleInterrupted message a).

(** Lines 174-201: what the handler does after the audio part. *)
Definition afterAudio (date : N) (message : Msg.LiveServerMessage) (a : App) : App :=
  handleInterrupted message
    (handleTurnComplete date message (handleTranscriptions message a)).

(** How far a handler gets before it gives way: to its end, or to the
    [await] of line 159 with the decoded buffer in hand. *)
Inductive progress : Type :=
| Finished (o : outcome)
| Awaiting (audioBuffer : AudioBuffer) (a : App).

(** The handler up to the [await]: lines 154-159.  The cursor is raised
    and the payload decoded; a message without a payload has no [await]
    and runs to its end. *)
Definition onmessage_begin (currentTime : Q) (date : N)
    (message : Msg.LiveServerMessage) (a : App) : progress :=
  match base64Audio message with
  | Throw e => Finished (Threw e a)
  | Ok None => Finished (Returned (afterAudio date message a))
  | Ok (Some payload) =>
      if truthy payload then
        let a := catchUp currentTime a in
        match bind (decode payload) (fun bytes => decodeAudioData bytes 24000 1) with
        | Throw e => Finished (Threw e a)
        | Ok audioBuffer => Awaiting audioBuffer a
        end
      else Finished (Returned (afterAudio date message a))
  end.

(** The handler from the [await] on: lines 160-201, on the state as it
    is when the handler resumes.  The source starts at the cursor read
    then. *)
Definition onmessage_resume (date : N) (message : Msg.LiveServerMessage)
    (audioBuffer : AudioBuffer) (a : App) : App :=
  afterAudio date message (startSource audioBuffer a).

(** The [onerror] callback. *)
Definition onerror (a : App) : App :=
  stopConversation (setConnectionState ERROR a).

(** The [onclose] callback. *)
Definition onclose (a : App) : App := setConnectionState DISCONNECTED a.

(** ** Runs of the playback scheduler *)

(** One audio chunk that decoded to [audioBuffer], handled when the output
    clock reads [currentTime]. *)
Definition playChunk (chunk : Q * AudioBuffer) (a : App) : App :=
  startSource (snd chunk) (catchUp (fst chunk) a).

Definition playChunks (chunks : list (Q * AudioBuffer)) (a : App) : App :=
  fold_left (fun a chunk => playChunk chunk a) chunks a.

(** The start times of the sources started in a trace, in order. *)
Fixpoint scheduledStarts (tr : list effect) : list Q :=
  match tr with
  | [] => []
  | SourceStart _ when _ :: r => when :: scheduledStarts r
  | _ :: r => scheduledStarts r
  end.

(** The sources stopped in a trace. *)
Fixpoint stoppedSources (tr : list effect) : list SourceNode :=
  match tr with
  | [] => []
  | SourceStop s :: r => s :: stoppedSources r
  | _ :: r => stoppedSources r
  end.

(** The start times a run of chunks schedules from a state. *)
Definition startsOf (chunks : list (Q * AudioBuffer)) (a : App) : list Q :=
  skipn (List.length (scheduledStarts (trace a)))
        (scheduledStarts (trace (playChunks chunks a))).

Definition sumDurations (chunks : list (Q * AudioBuffer)) : Q :=
  fold_right (fun chunk acc => duration (snd chunk) + acc) 0 chunks.

(** A buffer of [n] silent frames on one channel at 24 kHz. *)
Definition silence (n : nat) : AudioBuffer :=
  {| numberOfChannels := 1;
     frameCount := n;
     sampleRate := 24000;
     channelData := [repeat 0 n] |}.

(** A message that carries only the given audio payload. *)
Definition audioMessage (payload : jsstring) : Msg.LiveServerMessage :=
  {| Msg.serverContent := Some
       {| Msg.modelTurn := Some
            {| Msg.parts := Some
                 [{| Msg.inlineData := Some {| Msg.data := Some payload |} |}] |};
          Msg.outputTranscription := None;
          Msg.inputTranscription := None;
          Msg.turnComplete := None;
          Msg.interrupted := None |} |}.

(** A message with the given server content and nothing else. *)
Definition contentMessage (sc : Msg.ServerContent) : Msg.LiveServerMessage :=
  {| Msg.serverContent := Some sc |}.

Definition emptyContent : Msg.ServerContent :=
  {| Msg.modelTurn := None;
     Msg.outputTranscription := None;
     Msg.inputTranscription := None;
     Msg.turnComplete := None;
     Msg.interrupted := None |}.

(** ** Runs of the message handler *)

(** An event of the session: a message, with the output clock and the
    date read while it is handled. *)
Definition event : Type := Q * N * Msg.LiveServerMessage.

Definition handle (ev : event) (a : App) : outcome :=
  let '(currentTime, date, message) := ev in
  onmessage currentTime date message a.

(** Messages handled in arrival order, each in one piece; the run here
    ends at the first handler that throws. *)
Fixpoint runMessages (events : list event) (a : App) : outcome :=
  match events with
  | [] => Returned a
  | ev :: rest => handle ev a >>= runMessages rest
  end.

(** The chunk an event hands to the scheduler, when its message carries a
    payload that decodes. *)
Definition chunkOf (ev : event) : option (Q * AudioBuffer) :=
  let '(currentTime, _, message) := ev in
  match base64Audio message with
  | Ok (Some payload) =>
      if truthy payload then
        match bind (decode payload) (fun bytes => decodeAudioData bytes 24000 1) with
        | Ok audioBuffer => Some (currentTime, audioBuffer)
        | Throw _ => None
        end
      else None
  | _ => None
  end.

Definition chunksOf (events : list event) : list (Q * AudioBuffer) :=
  flat_map (fun ev => match chunkOf ev with Some c => [c] | None => [] end) events.

Definition isInterrupted (ev : event) : bool :=
  let '(_, _, message) := ev in
  match Msg.serverContent message with
  | Some sc => Msg.flag (Msg.interrupted sc)
  | None => false
  end.

(** The part of the state the scheduler owns. *)
Definition schedulerView (a : App) : Q * list SourceNode * nat * list effect :=
  (nextStartTimeRef a, activeSourcesRef a, createdSources a, trace a).

(** ** Sample inputs *)

(** A connected session with two sources playing. *)
Definition liveSession : App :=
  {| connectionState := CONNECTED;
     transcriptions := [];
     isListening := true;
     nextStartTimeRef := 2;
     activeSourcesRef := [0%nat; 1%nat];
     sessionRef := Some 7%nat;
     micStreamRef := Some [0%nat];
     currentOutputTranscriptionRef := str "The course has";
     currentInputTranscriptionRef := str " Hello ";
     createdSources := 2;
     trace := [] |}.

(** A model turn without a [parts] field. *)
Definition noPartsMessage : Msg.LiveServerMessage :=
  contentMessage
    {| Msg.modelTurn := Some {| Msg.parts := None |};
       Msg.outputTranscription := None;
       Msg.inputTranscription := None;
       Msg.turnComplete := None;
       Msg.interrupted := None |}.

(** A message with an output and an input fragment. *)
Definition bothFragments (output input : jsstring) : Msg.LiveServerMessage :=
  contentMessage
    {| Msg.modelTurn := None;
       Msg.outputTranscription := Some {| Msg.text := Some output |};
       Msg.inputTranscription := Some {| Msg.text := Some input |};
       Msg.turnComplete := None;
       Msg.interrupted := None |}.

Definition turnCompleteMessage : Msg.LiveServerMessage :=
  contentMessage
    {| Msg.modelTurn := None;
       Msg.outputTranscription := None;
       Msg.inputTranscription := None;
       Msg.turnComplete := Some true;
       Msg.interrupted := None |}.

Definition interruptedMessage : Msg.LiveServerMessage :=
  contentMessage
    {| Msg.modelTurn := None;
       Msg.outputTranscription := None;
       Msg.inputTranscription := None;
       Msg.turnComplete := None;
       Msg.interrupted := Some true |}.

(** The start times of a run are gapless when each equals the first plus
    the durations of the chunks before it. *)
Definition gapless (chunks : list (Q * AudioBuffer)) (a : App) : Prop :=
  forall i, (i < List.length chunks)%nat ->
    nth i (startsOf chunks a) 0 ==
    nth 0 (startsOf chunks a) 0 + sumDurations (firstn i chunks).

(** The output clock read when chunk [i] of a run is handled, and the
    cursor the chunk finds. *)
Definition arrival (chunks : list (Q * AudioBuffer)) (i : nat) : Q :=
  fst (nth i chunks (0, silence 0)).

Definition cursorBefore (chunks : list (Q * AudioBuffer)) (a : App) (i : nat) : Q :=
  nextStartTimeRef (playChunks (firstn i chunks) a).

(** ** [startConversation] and the life of a session *)

(** [startConversation] suspends twice, on [getUserMedia] and on the
    promise of [connect]; its three stretches are separate steps, the
    results of the two awaits being [None] for a rejection, which the
    [catch] turns into [ERROR]. *)
Definition startConversation_begin (a : App) : App :=
  setConnectionState CONNECTING a.

(** Lines 115-116, in the first stretch: each of the two audio-context
    refs gets a context, named here by its sample rate, unless it holds
    one.  No other code writes these refs, and they are kept apart from
    [App]. *)
Record AudioContexts : Type := {
  audioContextInRef : option positive;
  audioContextOutRef : option positive
}.

Definition startConversation_contexts (c : AudioContexts) : AudioContexts :=
  {| audioContextInRef :=
       match audioContextInRef c with Some ctx => Some ctx | None => Some 16000%positive end;
     audioContextOutRef :=
       match audioContextOutRef c with Some ctx => Some ctx | None => Some 24000%positive end |}.

(** Lines 111-116 together: the first stretch of [startConversation],
    up to the [await] of [getUserMedia]. *)
Definition startConversation_first (s : App * AudioContexts) : App * AudioContexts :=
  (startConversation_begin (fst s), startConversation_contexts (snd s)).

Definition startConversation_stream (stream : option (list Track)) (a : App) : App :=
  match stream with
  | Some tracks => set_micStream (Some tracks) a
  | None => setConnectionState ERROR a
  end.

Definition startConversation_session (session : option Session) (a : App) : App :=
  match session with
  | Some s => set_session (Some s) a
  | None => setConnectionState ERROR a
  end.

(** Everything that can happen to the component. *)
Inductive action : Type :=
| StartBegin
| StartStream (stream : option (list Track))
| StartSession (session : option Session)
| Open
| Message (currentTime : Q) (date : N) (message : Msg.LiveServerMessage)
| Ended (source : SourceNode)
| Error
| Close
| Stop
| SendText (sent : option exn) (date : N) (text : jsstring)
| ClearHistory
| MessageBegin (currentTime : Q) (date : N) (message : Msg.LiveServerMessage)
| MessageResume (date : N) (message : Msg.LiveServerMessage)
    (audioBuffer : AudioBuffer).

(** A handler that throws leaves the state it had reached.  [Message]
    is a message handled in one piece; [MessageBegin] and [MessageResume]
    are the two stretches of a handler, between which other actions can
    come. *)
Definition act (x : action) (a : App) : App :=
  match x with
  | StartBegin => startConversation_begin a
  | StartStream stream => startConversation_stream stream a
  | StartSession session => startConversation_session session a
  | Open => onopen a
  | Message currentTime date message => final (onmessage currentTime date message a)
  | Ended source => onended source a
  | Error => onerror a
  | Close => onclose a
  | Stop => stopConversation a
  | SendText sent date text => final (sendTextMessage sent date text a)
  | ClearHistory => clearHistory a
  | MessageBegin currentTime date message =>
      match onmessage_begin currentTime date message a with
      | Finished o => final o
      | Awaiting _ a' => a'
      end
  | MessageResume date message audioBuffer =>
      onmessage_resume date message audioBuffer a
  end.

Definition run (xs : list action) (a : App) : App :=
  fold_left (fun a x => act x a) xs a.

(** The sources started in a trace, in order. *)
Fixpoint startedSources (tr : list effect) : list SourceNode :=
  match tr with
  | [] => []
  | SourceStart s _ _ :: r => s :: startedSources r
  | _ :: r => startedSources r
  end.

(** Every [stop()] in the trace is on a source that [start()] was called
    on earlier, given the sources started before the trace. *)
Fixpoint stopsFollowStarts (started : list SourceNode) (tr : list effect) : bool :=
  match tr with
  | [] => true
  | SourceStart s _ _ :: r => stopsFollowStarts (s :: started) r
  | SourceStop s :: r => existsb (Nat.eqb s) started && stopsFollowStarts started r
  | _ :: r => stopsFollowStarts started r
  end.

(** The sources whose [ended] event was delivered in a run. *)
Fixpoint endedSources (xs : list action) : list SourceNode :=
  match xs with
  | [] => []
  | Ended s :: r => s :: endedSources r
  | _ :: r => endedSources r
  end.

(** A message with one transcript fragment of the given speaker. *)
Definition fragmentMessage (speaker : Role) (delta : jsstring) : Msg.LiveServerMessage :=
  contentMessage
    {| Msg.modelTurn := None;
       Msg.outputTranscription :=
         match speaker with
         | model => Some {| Msg.text := Some delta |}
         | user => None
         end;
       Msg.inputTranscription :=
         match speaker with
         | user => Some {| Msg.text := Some delta |}
         | model => None
         end;
       Msg.turnComplete := None;
       Msg.interrupted := None |}.

(** The fragments of one speaker, joined in arrival order. *)
Fixpoint spoken (speaker : Role) (fragments : list (Q * N * Role * jsstring)) : jsstring :=
  match fragments with
  | [] => []
  | (_, _, r, delta) :: rest =>
      match speaker, r with
      | user, user | model, model => delta ++ spoken speaker rest
      | _, _ => spoken speaker rest
      end
  end.

Definition fragmentEvent (f : Q * N * Role * jsstring) : event :=
  let '(currentTime, date, speaker, delta) := f in
  (currentTime, date, fragmentMessage speaker delta).

(** An action that carries the interrupted flag. *)
Definition interrupts (x : action) : bool :=
  match x with
  | Message currentTime date message => isInterrupted (currentTime, date, message)
  | MessageBegin currentTime date message =>
      isInterrupted (currentTime, date, message)
  | MessageResume date message _ => isInterrupted (0, date, message)
  | _ => false
  end.

(** What the scheduler keeps true: the active set has no duplicates and
    holds created sources only; the sources are started once each, in the
    order of their creation; a source is stopped only after it was
    started; the cursor is not negative. *)
Definition schedulerInv (a : App) : Prop :=
  NoDup (activeSourcesRef a) /\
  (forall s, In s (activeSourcesRef a) -> (s < createdSources a)%nat) /\
  startedSources (trace a) = seq 0 (createdSources a) /\
  stopsFollowStarts [] (trace a) = true /\
  0 <= nextStartTimeRef a.

(** Every created source is in the active set, or was stopped, or is
    among the given ended ones. *)
Definition accounted (ended : list SourceNode) (a : App) : Prop :=
  forall s, (s < createdSources a)%nat ->
    In s (activeSourcesRef a) \/ In s (stoppedSources (trace a)) \/ In s ended.


(** * Properties *)

(** ** Arithmetic helpers *)

Ltac divmod_lia := zify; Z.to_euclidean_division_equations; lia.

Lemma list_ind3 (A : Type) (P : list A -> Prop) :
  P [] ->
  (forall a, P [a]) ->
  (forall a b, P [a; b]) ->
  (forall a b c l, P l -> P (a :: b :: c :: l)) ->
  forall l, P l.
Proof.
  intros H0 H1 H2 H3 l.
  assert (H : P l /\ (forall a, P (a :: l)) /\ (forall a b, P (a :: b :: l))).
  { induction l as [|x l (IH0 & IH1 & IH2)].
    - repeat split; auto.
    - repeat split; auto. }
  apply H.
Qed.

Lemma mod4_SSSS (n : nat) : (S (S (S (S n))) mod 4 = n mod 4)%nat.
Proof.
  replace (S (S (S (S n)))) with (n + 1 * 4)%nat by lia.
  apply Nat.Div0.mod_add.
Qed.

Lemma mod3_SSS (n : nat) : (S (S (S n)) mod 3 = n mod 3)%nat.
Proof.
  replace (S (S (S n))) with (n + 1 * 3)%nat by lia.
  apply Nat.Div0.mod_add.
Qed.

(** ** The base64 functions are inverse on byte strings *)

Section Base64Facts.

Import Base64.
Local Open Scope N_scope.

Lemma index_alphabet (i : N) : i < 64 -> index (alphabet i) = Some i.
Proof.
  intros Hi. destruct i as [|p]; [reflexivity|].
  do 6 (try destruct p as [p|p|]); try reflexivity; exfalso; lia.
Qed.

Lemma index_not_whitespace (c i : N) :
  index c = Some i -> is_ascii_whitespace c = false.
Proof.
  intros H. destruct (is_ascii_whitespace c) eqn:E; [|reflexivity].
  unfold is_ascii_whitespace in E.
  repeat (apply orb_true_iff in E; destruct E as [E|E]);
    apply N.eqb_eq in E; subst c; discriminate H.
Qed.

Lemma index_not_pad (c i : N) : index c = Some i -> (c =? pad) = false.
Proof.
  unfold index, pad. intros H. apply N.eqb_neq. intros ->. discriminate H.
Qed.

Lemma sextets_bound (s : list N) :
  Forall (fun a => a < 256) s -> Forall (fun x => x < 64) (sextets s).
Proof.
  induction s as [|a|a b|a b c l IH] using list_ind3; intros H.
  - constructor.
  - inversion_clear H. simpl. repeat constructor; divmod_lia.
  - inversion_clear H as [|? ? Ha H']. inversion_clear H'.
    simpl. repeat constructor; divmod_lia.
  - inversion_clear H as [|? ? Ha H']. inversion_clear H' as [|? ? Hb H''].
    inversion_clear H'' as [|? ? Hc Hl].
    simpl. repeat (constructor; [divmod_lia|]). auto.
Qed.

Lemma unsextets_sextets (s : list N) :
  Forall (fun a => a < 256) s -> unsextets (sextets s) = s.
Proof.
  induction s as [|a|a b|a b c l IH] using list_ind3; intros H.
  - reflexivity.
  - inversion_clear H. simpl. f_equal. divmod_lia.
  - inversion_clear H as [|? ? Ha H']. inversion_clear H'.
    simpl. repeat (apply (f_equal2 (@cons N)); [divmod_lia|]). reflexivity.
  - inversion_clear H as [|? ? Ha H']. inversion_clear H' as [|? ? Hb H''].
    inversion_clear H'' as [|? ? Hc Hl].
    simpl. rewrite (IH Hl). repeat (apply (f_equal2 (@cons N)); [divmod_lia|]). reflexivity.
Qed.

Lemma indices_alphabet (l : list N) :
  Forall (fun x => x < 64) l -> indices (map alphabet l) = Some l.
Proof.
  induction 1 as [|x l Hx _ IH]; simpl.
  - reflexivity.
  - rewrite (index_alphabet Hx), IH. reflexivity.
Qed.

Lemma drop_pad_id (l : jsstring) :
  Forall (fun c => (c =? pad) = false) l -> drop_pad l = l.
Proof.
  intros H. destruct H as [|c l Hc _]; simpl; [reflexivity|].
  rewrite Hc. reflexivity.
Qed.

Lemma alphabet_chars (l : list N) :
  Forall (fun x => x < 64) l ->
  Forall (fun c => is_ascii_whitespace c = false /\ (c =? pad) = false)
         (map alphabet l).
Proof.
  intros H. apply Forall_map. eapply Forall_impl; [|exact H].
  intros i Hi. simpl. split.
  - eapply index_not_whitespace, index_alphabet, Hi.
  - eapply index_not_pad, index_alphabet, Hi.
Qed.

Lemma padding_SSS (n : nat) : padding (S (S (S n))) = padding n.
Proof. unfold padding. rewrite mod3_SSS. reflexivity. Qed.

Lemma padding_cases (n : nat) :
  padding n = [] \/ padding n = [pad] \/ padding n = [pad; pad].
Proof.
  unfold padding. destruct (n mod 3)%nat as [|[|[|k]]]; auto.
Qed.

Lemma encoded_length (s : list N) :
  (length (map alphabet (sextets s) ++ padding (length s)) mod 4 = 0)%nat.
Proof.
  induction s as [|a|a b|a b c l IH] using list_ind3; try reflexivity.
  cbn [sextets map app length]. rewrite padding_SSS.
  rewrite mod4_SSSS. exact IH.
Qed.

Lemma sextets_length (s : list N) : (length (sextets s) mod 4 <> 1)%nat.
Proof.
  induction s as [|a|a b|a b c l IH] using list_ind3; try (simpl; lia).
  cbn [sextets length]. rewrite mod4_SSSS. exact IH.
Qed.

Lemma filter_whitespace_id (d : jsstring) :
  Forall (fun c => is_ascii_whitespace c = false) d ->
  filter (fun c => negb (is_ascii_whitespace c)) d = d.
Proof.
  induction 1 as [|c d Hc _ IH]; simpl; [reflexivity|].
  rewrite Hc. simpl. rewrite IH. reflexivity.
Qed.

Lemma strip_padding_encoded (body : jsstring) (n : nat) :
  Forall (fun c => (c =? pad) = false) body ->
  (length (body ++ padding n) mod 4 = 0)%nat ->
  strip_padding (body ++ padding n) = body.
Proof.
  intros Hbody Hlen. unfold strip_padding. rewrite Hlen. simpl Nat.eqb. cbv iota.
  assert (Hrev : drop_pad (rev body) = rev body).
  { apply drop_pad_id, Forall_rev, Hbody. }
  destruct (padding_cases n) as [-> | [-> | ->]]; rewrite rev_app_distr; simpl.
  - rewrite !Hrev. apply rev_involutive.
  - rewrite Hrev. apply rev_involutive.
  - apply rev_involutive.
Qed.

(** [atob] undoes [btoa] on every string of code units below 256. *)
Lemma atob_btoa (s : jsstring) :
  Forall (fun a => a < 256) s -> bind (btoa s) atob = Ok s.
Proof.
  intros Hs. unfold btoa.
  assert (Hall : forallb (fun c => c <? 256) s = true).
  { apply forallb_forall. intros c Hc. apply N.ltb_lt.
    revert c Hc. apply Forall_forall. exact Hs. }
  rewrite Hall. cbn [bind]. unfold atob.
  pose proof (alphabet_chars (sextets_bound Hs)) as Hchars.
  rewrite filter_whitespace_id.
  2:{ apply Forall_app. split.
      - eapply Forall_impl; [|exact Hchars]. intros c [Hc _]. exact Hc.
      - destruct (padding_cases (length s)) as [-> | [-> | ->]];
          repeat constructor. }
  rewrite strip_padding_encoded.
  2:{ eapply Forall_impl; [|exact Hchars]. intros c [_ Hc]. exact Hc. }
  2:{ apply encoded_length. }
  rewrite length_map.
  destruct (length (sextets s) mod 4 =? 1)%nat eqn:E.
  - apply Nat.eqb_eq in E. destruct (sextets_length s E).
  - rewrite indices_alphabet by (apply sextets_bound, Hs).
    rewrite unsextets_sextets by exact Hs. reflexivity.
Qed.

End Base64Facts.

Lemma uint8_of_to_N (b : byte) : uint8_of_N (Byte.to_N b) = b.
Proof.
  unfold uint8_of_N. rewrite N.mod_small.
  - rewrite Byte.of_to_N. reflexivity.
  - pose proof (Byte.to_N_bounded b). lia.
Qed.

(** C5.  Decoding the transport text of a byte sequence gives the bytes
    back: [encode] never throws on a [Uint8Array], and [decode] applied to
    its result returns exactly the original bytes, for every byte value and
    every length, the empty sequence included. *)
Theorem decode_encode (bytes : list byte) :
  bind (encode bytes) decode = Ok bytes.
Proof.
  unfold encode, decode.
  assert (Hs : Forall (fun a => (a < 256)%N) (map Byte.to_N bytes)).
  { apply Forall_map, Forall_forall. intros b _.
    pose proof (Byte.to_N_bounded b). simpl. lia. }
  pose proof (atob_btoa Hs) as H.
  destruct (Base64.btoa (map Byte.to_N bytes)) as [t|e]; cbn [bind] in *.
  - rewrite H. cbn [bind]. f_equal.
    rewrite map_map. rewrite <- (map_id bytes) at 2.
    apply map_ext. intros b. apply uint8_of_to_N.
  - discriminate H.
Qed.

(** ** The sample conversions *)

Section Samples.

Lemma quot_bounds (n : Z) (d : positive) :
  (- Zpos d <= n < Zpos d)%Z ->
  let t := Z.quot (n * 32768) (Zpos d) in
  (-32768 <= t <= 32767 /\ - Zpos d < t * Zpos d - n * 32768 < Zpos d)%Z.
Proof.
  intros H t. subst t.
  Z.to_euclidean_division_equations. nia.
Qed.

(** [ToInt16] is the truncation on numbers whose integer part fits. *)
Lemma ToInt16_small (x : Q) :
  (-32768 <= Qtrunc x <= 32767)%Z -> ToInt16 x = Qtrunc x.
Proof.
  intros H. unfold ToInt16.
  destruct (32768 <=? Qtrunc x mod 65536)%Z eqn:E.
  - apply Z.leb_le in E. Z.to_euclidean_division_equations. lia.
  - apply Z.leb_gt in E. Z.to_euclidean_division_equations. lia.
Qed.

Lemma toInt16_in_range (s : Q) :
  -1 <= s -> s < 1 ->
  toInt16 s = Z.quot (Qnum s * 32768) (Zpos (Qden s)).
Proof.
  intros Hlo Hhi. unfold toInt16.
  assert (E : Qtrunc (s * 32768) = Z.quot (Qnum s * 32768) (Zpos (Qden s))).
  { unfold Qtrunc. simpl. rewrite Pos.mul_1_r. reflexivity. }
  rewrite ToInt16_small; [exact E|]. rewrite E.
  apply quot_bounds. unfold Qle, Qlt in *. simpl in *. lia.
Qed.

(** The sample 1 scales to 32768, which wraps to -32768 and comes back
    as -1. *)
Lemma toInt16_one : toInt16 1 = (-32768)%Z /\ toFloat (toInt16 1) == -1.
Proof. split; reflexivity. Qed.

(** C6, as stated, fails at the sample 1, which lies in [-1, 1]: the
    round trip is off by 2. *)
Lemma pcm_roundtrip_fails_at_one :
  ~ (-1 <= 1 /\ 1 <= 1 -> Qabs (toFloat (toInt16 1) - 1) <= 1 # 32768).
Proof.
  intros H.
  assert (Hin : -1 <= 1 /\ 1 <= 1) by (split; discriminate).
  specialize (H Hin). vm_compute in H. apply H. reflexivity.
Qed.

(** C6, amended.  For every sample [s] with [-1 <= s < 1], converting to
    int16 and back gives a value within [1/32768] of [s]. *)
Theorem pcm_roundtrip_bound (s : Q) :
  -1 <= s -> s < 1 -> Qabs (toFloat (toInt16 s) - s) <= 1 # 32768.
Proof.
  intros Hlo Hhi. rewrite (toInt16_in_range Hlo Hhi).
  destruct s as [n d].
  assert (Hr : (- Zpos d <= n < Zpos d)%Z)
    by (unfold Qle, Qlt in *; simpl in *; lia).
  destruct (quot_bounds Hr) as [_ B]. cbn [Qnum Qden].
  set (t := Z.quot (n * 32768) (Zpos d)) in *.
  apply Qabs_case; intros _;
    unfold toFloat, Qdiv, Qle, Qminus, Qplus, Qopp, Qmult, Qinv, inject_Z;
    cbn -[Z.mul Pos.mul]; rewrite ?Pos2Z.inj_mul; lia.
Qed.

Lemma pcm_roundtrip_bound_witness :
  -1 <= (-1 # 3) /\ (-1 # 3) < 1 /\
  Qabs (toFloat (toInt16 (-1 # 3)) - (-1 # 3)) <= 1 # 32768.
Proof.
  assert (Hlo : -1 <= (-1 # 3)) by discriminate.
  assert (Hhi : (-1 # 3) < 1) by reflexivity.
  split; [exact Hlo|]. split; [exact Hhi|].
  exact (pcm_roundtrip_bound Hlo Hhi).
Defined.

End Samples.

(** ** The session controls *)

Section Controls.

Lemma perform_nil (a : App) : perform [] a = a.
Proof. destruct a. unfold perform. simpl. rewrite app_nil_r. reflexivity. Qed.

(** What [stopConversation] leaves behind. *)
Lemma stopConversation_fields (a : App) :
  sessionRef (stopConversation a) = None /\
  micStreamRef (stopConversation a) = None /\
  activeSourcesRef (stopConversation a) = [] /\
  connectionState (stopConversation a) = DISCONNECTED /\
  isListening (stopConversation a) = false.
Proof.
  unfold stopConversation.
  destruct a as [cs tr li nx act [s|] [ts|] out inp n t]; simpl;
    repeat split; reflexivity.
Qed.

(** The calls [stopConversation] makes: close the session if there is
    one, stop the tracks of the microphone stream if there is one, stop
    every active source. *)
Lemma stopConversation_trace (a : App) :
  trace (stopConversation a) =
    trace a
    ++ match sessionRef a with Some s => [SessionClose s] | None => [] end
    ++ match micStreamRef a with Some ts => map TrackStop ts | None => [] end
    ++ map SourceStop (activeSourcesRef a).
Proof.
  unfold stopConversation.
  destruct a as [cs tr li nx act [s|] [ts|] out inp n t]; simpl;
    rewrite <- ?app_assoc; reflexivity.
Qed.

(** C9.  [stopConversation] is total, and calling it twice in a row ends
    in the same state as calling it once: the session is closed and the
    ref is null, the microphone tracks are stopped and the ref is null,
    every active source is stopped and the active set is empty, the state
    is [DISCONNECTED]; with nothing active it changes nothing. *)
Theorem stopConversation_idempotent (a : App) :
  stopConversation (stopConversation a) = stopConversation a /\
  sessionRef (stopConversation a) = None /\
  micStreamRef (stopConversation a) = None /\
  activeSourcesRef (stopConversation a) = [] /\
  connectionState (stopConversation a) = DISCONNECTED /\
  (forall s, sessionRef a = Some s -> In (SessionClose s) (trace (stopConversation a))) /\
  (forall ts t, micStreamRef a = Some ts -> In t ts ->
                In (TrackStop t) (trace (stopConversation a))) /\
  (forall src, In src (activeSourcesRef a) ->
               In (SourceStop src) (trace (stopConversation a))) /\
  stopConversation initial = initial.
Proof.
  pose proof (stopConversation_fields a) as (Hs & Hm & Ha & Hc & _).
  repeat split; try assumption.
  - destruct a as [cs tr li nx act [s|] [ts|] out inp n t];
      unfold stopConversation; simpl; rewrite perform_nil; reflexivity.
  - intros s E. rewrite stopConversation_trace, E.
    apply in_or_app. right. left. reflexivity.
  - intros ts t E Ht. rewrite stopConversation_trace, E.
    apply in_or_app. right. apply in_or_app. right.
    apply in_or_app. left. apply in_map. exact Ht.
  - intros src Hsrc. rewrite stopConversation_trace.
    apply in_or_app. right. apply in_or_app. right.
    apply in_or_app. right. apply in_map. exact Hsrc.
Qed.

(** C3 fails on the connection state.  The transport's [onError], at any
    state, performs the cleanup of [stopConversation], but the state it
    ends in is the one [stopConversation] alone would give,
    [DISCONNECTED]: the [ERROR] it sets first is overwritten by
    [stopConversation]. *)
Theorem onerror_ends_disconnected (a : App) :
  onerror a = stopConversation a /\
  connectionState (onerror a) = DISCONNECTED /\
  connectionState (onerror a) <> ERROR.
Proof.
  assert (E : onerror a = stopConversation a).
  { unfold onerror, stopConversation.
    destruct a as [cs tr li nx act [s|] [ts|] out inp n t]; reflexivity. }
  rewrite E. pose proof (stopConversation_fields a) as (_ & _ & _ & Hc & _).
  rewrite Hc. repeat split. discriminate.
Qed.



(** The guard, as a function of the state alone. *)
Lemma sendTextMessage_no_session (sent : option exn) (date : N) (text : jsstring)
    (a : App) :
  sessionRef a = None -> sendTextMessage sent date text a = Returned a.
Proof. intros H. unfold sendTextMessage. rewrite H. reflexivity. Qed.

End Controls.

(** ** The message handler *)

Section Messages.

Variables (currentTime : Q) (date : N).

(** The audio part touches the scheduler only. *)
Lemma handleAudio_frame (message : Msg.LiveServerMessage) (a : App) :
  let a' := final (handleAudio currentTime message a) in
  connectionState a' = connectionState a /\
  transcriptions a' = transcriptions a /\
  currentOutputTranscriptionRef a' = currentOutputTranscriptionRef a /\
  currentInputTranscriptionRef a' = currentInputTranscriptionRef a /\
  sessionRef a' = sessionRef a.
Proof.
  unfold handleAudio.
  destruct (base64Audio message) as [[payload|]|e]; simpl; auto 6.
  destruct (truthy payload); simpl; auto 6.
  destruct (bind (decode payload) _); destruct a; simpl; auto 6.
Qed.

(** No message changes the connection state. *)
Lemma onmessage_connectionState (message : Msg.LiveServerMessage) (a : App) :
  connectionState (final (onmessage currentTime date message a)) = connectionState a.
Proof.
  unfold onmessage.
  pose proof (handleAudio_frame message a) as (Hc & _).
  destruct (handleAudio currentTime message a) as [a1|e a1]; simpl in *;
    [|exact Hc].
  rewrite <- Hc.
  unfold handleInterrupted, handleTurnComplete, handleTranscriptions, completeTurn.
  destruct (Msg.serverContent message) as [sc|]; [|reflexivity].
  destruct (Msg.flag (Msg.interrupted sc)), (Msg.flag (Msg.turnComplete sc)),
    (Msg.outputTranscription sc), (Msg.inputTranscription sc);
    try destruct (truthy _ || truthy _); reflexivity.
Qed.

(** Payloads the handler skips: no server content, no model turn, an
    empty list of parts, a part without inline data, inline data without
    [data], and an empty [data]. *)
Lemma onmessage_skips (a : App) :
  onmessage currentTime date {| Msg.serverContent := None |} a = Returned a /\
  onmessage currentTime date (contentMessage emptyContent) a = Returned a /\
  (forall parts,
     parts = [] \/
     parts = [{| Msg.inlineData := None |}] \/
     parts = [{| Msg.inlineData := Some {| Msg.data := None |} |}] \/
     parts = [{| Msg.inlineData := Some {| Msg.data := Some [] |} |}] ->
     onmessage currentTime date
       (contentMessage
          {| Msg.modelTurn := Some {| Msg.parts := Some parts |};
             Msg.outputTranscription := None;
             Msg.inputTranscription := None;
             Msg.turnComplete := None;
             Msg.interrupted := None |}) a = Returned a).
Proof.
  repeat split.
  intros parts [-> | [-> | [-> | ->]]]; reflexivity.
Qed.

(** C7 fails on a model turn that has no [parts] field: the handler
    throws a [TypeError] at the unguarded index and the rest of the
    message (fragments, turn boundary, interruption) is not processed. *)
Theorem onmessage_throws_without_parts (message : Msg.LiveServerMessage)
    (sc : Msg.ServerContent) (a : App) :
  Msg.serverContent message = Some sc ->
  Msg.modelTurn sc = Some {| Msg.parts := None |} ->
  onmessage currentTime date message a = Threw TypeError a.
Proof.
  intros Hsc Hturn. unfold onmessage, handleAudio, base64Audio.
  rewrite Hsc, Hturn. reflexivity.
Qed.

End Messages.

Lemma onmessage_throws_without_parts_witness :
  onmessage 0 0 noPartsMessage liveSession = Threw TypeError liveSession.
Proof.
  apply (@onmessage_throws_without_parts 0 0%N noPartsMessage _ liveSession
           eq_refl eq_refl).
Defined.

(** A payload that is not base64, or that decodes to an odd number of
    bytes, makes the handler throw as well, after the cursor was raised. *)
Lemma onmessage_throws_on_bad_audio :
  onmessage 5 0 (audioMessage (str "!")) initial
    = Threw InvalidCharacterError (catchUp 5 initial) /\
  onmessage 5 0 (audioMessage (str "AA==")) initial
    = Threw RangeError (catchUp 5 initial).
Proof. split; reflexivity. Qed.

(** ** The transcript aggregator *)

Section Transcript.

Variables (currentTime : Q) (date : N).

Lemma handleTranscriptions_buffers (message : Msg.LiveServerMessage) (a1 a : App) :
  currentOutputTranscriptionRef a1 = currentOutputTranscriptionRef a ->
  currentInputTranscriptionRef a1 = currentInputTranscriptionRef a ->
  currentOutputTranscriptionRef (handleTranscriptions message a1)
    = currentOutputTranscriptionRef (handleTranscriptions message a) /\
  currentInputTranscriptionRef (handleTranscriptions message a1)
    = currentInputTranscriptionRef (handleTranscriptions message a) /\
  transcriptions (handleTranscriptions message a1) = transcriptions a1.
Proof.
  intros Ho Hi. unfold handleTranscriptions.
  destruct (Msg.serverContent message) as [sc|]; [|auto].
  destruct (Msg.outputTranscription sc) as [t|];
    [|destruct (Msg.inputTranscription sc) as [t|]];
    simpl; rewrite ?Ho, ?Hi; auto.
Qed.

Lemma completeTurn_spec (a : App) :
  let userText := trim (currentInputTranscriptionRef a) in
  let modelText := trim (currentOutputTranscriptionRef a) in
  transcriptions (completeTurn date a) =
    transcriptions a
    ++ (if truthy userText
        then [{| role := user; text := userText; timestamp := date |}] else [])
    ++ (if truthy modelText
        then [{| role := model; text := modelText; timestamp := date |}] else []) /\
  currentInputTranscriptionRef (completeTurn date a) = [] /\
  currentOutputTranscriptionRef (completeTurn date a) = [].
Proof.
  unfold completeTurn, entries.
  destruct (truthy (trim (currentInputTranscriptionRef a))),
    (truthy (trim (currentOutputTranscriptionRef a)));
    simpl; rewrite ?app_nil_r; auto.
Qed.

Lemma handleInterrupted_frame (message : Msg.LiveServerMessage) (a : App) :
  transcriptions (handleInterrupted message a) = transcriptions a /\
  currentInputTranscriptionRef (handleInterrupted message a)
    = currentInputTranscriptionRef a /\
  currentOutputTranscriptionRef (handleInterrupted message a)
    = currentOutputTranscriptionRef a.
Proof.
  unfold handleInterrupted.
  destruct (Msg.serverContent message) as [sc|]; [|auto].
  destruct (Msg.flag (Msg.interrupted sc)); auto.
Qed.

(** C4.  A message with the turn-complete flag, once handled: both
    buffers are trimmed, one entry is appended per buffer that is not
    empty after trimming, the user entry first and the model entry
    second; nothing is appended when both are empty; and both buffers are
    empty afterwards.  The buffers are the ones the fragment step of the
    same message leaves. *)
Theorem turnComplete_commits (message : Msg.LiveServerMessage)
    (sc : Msg.ServerContent) (a a' : App) :
  Msg.serverContent message = Some sc ->
  Msg.flag (Msg.turnComplete sc) = true ->
  onmessage currentTime date message a = Returned a' ->
  let pending := handleTranscriptions message a in
  let userText := trim (currentInputTranscriptionRef pending) in
  let modelText := trim (currentOutputTranscriptionRef pending) in
  transcriptions a' =
    transcriptions a
    ++ (if truthy userText
        then [{| role := user; text := userText; timestamp := date |}] else [])
    ++ (if truthy modelText
        then [{| role := model; text := modelText; timestamp := date |}] else []) /\
  (userText = [] -> modelText = [] -> transcriptions a' = transcriptions a) /\
  currentInputTranscriptionRef a' = [] /\
  currentOutputTranscriptionRef a' = [].
Proof.
  intros Hsc Hflag Hrun pending userText modelText.
  unfold onmessage in Hrun.
  pose proof (handleAudio_frame currentTime message a) as (_ & Htr & Ho & Hi & _).
  destruct (handleAudio currentTime message a) as [a1|e a1];
    simpl in Hrun, Htr, Ho, Hi; [|discriminate].
  injection Hrun as <-.
  pose proof (handleTranscriptions_buffers message a1 a Ho Hi) as (Ho' & Hi' & Htr').
  pose proof (handleInterrupted_frame message
                (handleTurnComplete date message (handleTranscriptions message a1)))
    as (-> & -> & ->).
  unfold handleTurnComplete. rewrite Hsc, Hflag.
  pose proof (completeTurn_spec (handleTranscriptions message a1)) as (E & -> & ->).
  rewrite E, Hi', Ho', Htr', Htr. fold pending userText modelText.
  repeat split.
  intros -> ->. simpl. apply app_nil_r.
Qed.

(** C8 fails on a message that carries both fragments: the input
    fragment is not appended. *)
Lemma input_fragment_dropped :
  ~ (currentInputTranscriptionRef
       (final (onmessage 0 0 (bothFragments (str "Hi") (str "Yo")) initial))
     = currentInputTranscriptionRef initial ++ str "Yo").
Proof. vm_compute. discriminate. Qed.

(** C8, amended.  When the audio part of the handler returns, the
    fragment step runs on buffers it has not touched: an output fragment
    is appended to the output buffer and the input buffer is left alone;
    an input fragment is appended to the input buffer when the message
    has no output fragment. *)
Theorem fragments_appended (message : Msg.LiveServerMessage)
    (sc : Msg.ServerContent) (a a1 : App) :
  Msg.serverContent message = Some sc ->
  handleAudio currentTime message a = Returned a1 ->
  onmessage currentTime date message a =
    Returned (handleInterrupted message
                (handleTurnComplete date message (handleTranscriptions message a1))) /\
  (forall delta, Msg.outputTranscription sc = Some {| Msg.text := Some delta |} ->
     currentOutputTranscriptionRef (handleTranscriptions message a1)
       = currentOutputTranscriptionRef a ++ delta /\
     currentInputTranscriptionRef (handleTranscriptions message a1)
       = currentInputTranscriptionRef a) /\
  (forall delta, Msg.outputTranscription sc = None ->
     Msg.inputTranscription sc = Some {| Msg.text := Some delta |} ->
     currentInputTranscriptionRef (handleTranscriptions message a1)
       = currentInputTranscriptionRef a ++ delta /\
     currentOutputTranscriptionRef (handleTranscriptions message a1)
       = currentOutputTranscriptionRef a).
Proof.
  intros Hsc Hrun.
  pose proof (handleAudio_frame currentTime message a) as (_ & _ & Ho & Hi & _).
  rewrite Hrun in Ho, Hi. simpl in Ho, Hi.
  split; [unfold onmessage; rewrite Hrun; reflexivity|].
  unfold handleTranscriptions. rewrite Hsc. split.
  - intros delta ->. simpl. rewrite Ho, Hi. auto.
  - intros delta -> ->. simpl. rewrite Ho, Hi. auto.
Qed.

(** Without the turn-complete flag the buffers the fragment step leaves
    are the buffers after the message. *)
Lemma fragments_kept (message : Msg.LiveServerMessage) (sc : Msg.ServerContent)
    (a a1 : App) :
  Msg.serverContent message = Some sc ->
  Msg.flag (Msg.turnComplete sc) = false ->
  handleAudio currentTime message a = Returned a1 ->
  let a' := final (onmessage currentTime date message a) in
  currentOutputTranscriptionRef a'
    = currentOutputTranscriptionRef (handleTranscriptions message a1) /\
  currentInputTranscriptionRef a'
    = currentInputTranscriptionRef (handleTranscriptions message a1).
Proof.
  intros Hsc Hflag Hrun. unfold onmessage. rewrite Hrun. simpl.
  pose proof (handleInterrupted_frame message
                (handleTurnComplete date message (handleTranscriptions message a1)))
    as (_ & -> & ->).
  unfold handleTurnComplete. rewrite Hsc, Hflag. auto.
Qed.

End Transcript.

Lemma turnComplete_commits_witness :
  transcriptions (final (onmessage 0 9 turnCompleteMessage liveSession)) =
    [{| role := user; text := str "Hello"; timestamp := 9 |};
     {| role := model; text := str "The course has"; timestamp := 9 |}] /\
  currentInputTranscriptionRef (final (onmessage 0 9 turnCompleteMessage liveSession)) = [].
Proof.
  destruct (@turnComplete_commits 0 9%N turnCompleteMessage _ liveSession _
              eq_refl eq_refl eq_refl) as (E & _ & Hi & _).
  split; [exact E | exact Hi].
Defined.

Lemma fragments_appended_witness :
  currentOutputTranscriptionRef
    (handleTranscriptions (bothFragments (str " five") (str "Yo")) liveSession)
  = str "The course has five".
Proof.
  destruct (@fragments_appended 0 0%N (bothFragments (str " five") (str "Yo")) _
              liveSession liveSession eq_refl eq_refl) as (_ & H & _).
  destruct (H (str " five") eq_refl) as (E & _). exact E.
Defined.

(** ** The playback scheduler *)

Section Scheduler.

Lemma skipn_length_app (A : Type) (l1 l2 : list A) :
  skipn (List.length l1) (l1 ++ l2) = l2.
Proof. induction l1 as [|x l1 IH]; simpl; auto. Qed.

Lemma scheduledStarts_app (t1 t2 : list effect) :
  scheduledStarts (t1 ++ t2) = scheduledStarts t1 ++ scheduledStarts t2.
Proof.
  induction t1 as [|e t1 IH]; simpl; [reflexivity|].
  destruct e; simpl; rewrite IH; reflexivity.
Qed.

Lemma duration_nonneg (b : AudioBuffer) : 0 <= duration b.
Proof. unfold duration, Qle. simpl. lia. Qed.

(** One chunk: the source starts at the maximum of the cursor and the
    clock, and the cursor moves to that start plus the duration. *)
Lemma playChunk_trace (chunk : Q * AudioBuffer) (a : App) :
  trace (playChunk chunk a) =
    trace a ++ [SourceStart (createdSources a)
                            (Qmax (nextStartTimeRef a) (fst chunk)) (snd chunk)].
Proof. destruct a. reflexivity. Qed.

Lemma playChunk_cursor (chunk : Q * AudioBuffer) (a : App) :
  nextStartTimeRef (playChunk chunk a) =
    Qmax (nextStartTimeRef a) (fst chunk) + duration (snd chunk).
Proof. destruct a. reflexivity. Qed.

Lemma playChunks_extends (chunks : list (Q * AudioBuffer)) (a : App) :
  exists l, scheduledStarts (trace (playChunks chunks a)) =
            scheduledStarts (trace a) ++ l.
Proof.
  revert a. induction chunks as [|c cs IH]; intros a.
  - exists []. simpl. rewrite app_nil_r. reflexivity.
  - destruct (IH (playChunk c a)) as [l Hl]. simpl. rewrite Hl.
    rewrite playChunk_trace, scheduledStarts_app. simpl.
    rewrite <- app_assoc. eexists. reflexivity.
Qed.

Lemma startsOf_cons (c : Q * AudioBuffer) (cs : list (Q * AudioBuffer)) (a : App) :
  startsOf (c :: cs) a =
    Qmax (nextStartTimeRef a) (fst c) :: startsOf cs (playChunk c a).
Proof.
  unfold startsOf. simpl.
  destruct (playChunks_extends cs (playChunk c a)) as [l Hl]. rewrite Hl.
  rewrite skipn_length_app.
  rewrite playChunk_trace, scheduledStarts_app. simpl.
  rewrite <- app_assoc. rewrite skipn_length_app. reflexivity.
Qed.

Lemma startsOf_nil (a : App) : startsOf [] a = [].
Proof. unfold startsOf. simpl. apply skipn_all. Qed.

Lemma startsOf_length (chunks : list (Q * AudioBuffer)) (a : App) :
  List.length (startsOf chunks a) = List.length chunks.
Proof.
  revert a. induction chunks as [|c cs IH]; intros a.
  - rewrite startsOf_nil. reflexivity.
  - rewrite startsOf_cons. simpl. rewrite IH. reflexivity.
Qed.

(** The start of chunk [i] is the maximum of the cursor it finds and the
    clock at that moment. *)
Lemma start_is_max (chunks : list (Q * AudioBuffer)) (a : App) (i : nat) :
  (i < List.length chunks)%nat ->
  nth i (startsOf chunks a) 0 = Qmax (cursorBefore chunks a i) (arrival chunks i).
Proof.
  revert a i. induction chunks as [|c cs IH]; intros a i Hi; simpl in Hi; [lia|].
  rewrite startsOf_cons. destruct i as [|i].
  - reflexivity.
  - simpl. unfold cursorBefore, arrival in *. simpl. apply IH. lia.
Qed.

(** The cursor after chunk [i] is its start plus its duration. *)
Lemma cursor_advances (chunks : list (Q * AudioBuffer)) (a : App) (i : nat) :
  (i < List.length chunks)%nat ->
  cursorBefore chunks a (S i) =
    nth i (startsOf chunks a) 0 + duration (snd (nth i chunks (0, silence 0))).
Proof.
  revert a i. induction chunks as [|c cs IH]; intros a i Hi; simpl in Hi; [lia|].
  rewrite startsOf_cons. destruct i as [|i].
  - unfold cursorBefore. simpl. apply playChunk_cursor.
  - unfold cursorBefore in *. simpl. apply IH. lia.
Qed.

Lemma sumDurations_firstn_S (chunks : list (Q * AudioBuffer)) (i : nat) :
  (i < List.length chunks)%nat ->
  sumDurations (firstn (S i) chunks) ==
    sumDurations (firstn i chunks) + duration (snd (nth i chunks (0, silence 0))).
Proof.
  revert i. induction chunks as [|c cs IH]; intros i Hi; simpl in Hi; [lia|].
  destruct i as [|i].
  - unfold sumDurations. cbn [firstn fold_right nth snd]. lra.
  - change (sumDurations (firstn (S (S i)) (c :: cs)))
      with (duration (snd c) + sumDurations (firstn (S i) cs)).
    change (sumDurations (firstn (S i) (c :: cs)))
      with (duration (snd c) + sumDurations (firstn i cs)).
    rewrite IH by lia. cbn [nth]. lra.
Qed.

(** Start times never decrease. *)
Lemma starts_monotone (chunks : list (Q * AudioBuffer)) (a : App) (i : nat) :
  (S i < List.length chunks)%nat ->
  nth i (startsOf chunks a) 0 <= nth (S i) (startsOf chunks a) 0.
Proof.
  intros Hi.
  rewrite (start_is_max chunks a Hi).
  rewrite cursor_advances by lia.
  pose proof (duration_nonneg (snd (nth i chunks (0, silence 0)))) as Hd.
  eapply Qle_trans; [|apply Q.le_max_l]. lra.
Qed.

(** No overlap: chunk [i] starts no earlier than the first start plus the
    durations before it. *)
Lemma starts_lower_bound (chunks : list (Q * AudioBuffer)) (a : App) (i : nat) :
  (i < List.length chunks)%nat ->
  nth 0 (startsOf chunks a) 0 + sumDurations (firstn i chunks)
    <= nth i (startsOf chunks a) 0.
Proof.
  induction i as [|i IH]; intros Hi.
  - simpl. lra.
  - rewrite sumDurations_firstn_S by lia.
    rewrite (start_is_max chunks a Hi).
    rewrite cursor_advances by lia.
    eapply Qle_trans; [|apply Q.le_max_l].
    assert (H := IH ltac:(lia)). lra.
Qed.

(** No gap either, as long as every later chunk is handled before the
    clock has passed the cursor. *)
Lemma starts_gapless (chunks : list (Q * AudioBuffer)) (a : App) (i : nat) :
  (i < List.length chunks)%nat ->
  (forall j, (0 < j <= i)%nat -> arrival chunks j <= cursorBefore chunks a j) ->
  nth i (startsOf chunks a) 0 ==
    nth 0 (startsOf chunks a) 0 + sumDurations (firstn i chunks).
Proof.
  induction i as [|i IH]; intros Hi Hnow.
  - simpl. lra.
  - rewrite sumDurations_firstn_S by lia.
    rewrite (start_is_max chunks a Hi).
    rewrite (Q.max_l _ _ (Hnow (S i) ltac:(lia))).
    rewrite cursor_advances by lia.
    rewrite IH by (try lia; intros j Hj; apply Hnow; lia). lra.
Qed.

(** C1 as stated fails when a chunk arrives after the previous one has
    finished: a tenth of a second of audio handled at time 0, then
    another handled at time 5, start at 0 and at 5, not at 0 and at 1/10. *)
Lemma late_chunk_leaves_gap :
  ~ gapless [(0, silence 2400); (5, silence 2400)] initial.
Proof.
  intros H. specialize (H 1%nat ltac:(simpl; lia)).
  vm_compute in H. discriminate H.
Qed.

(** C1, amended.  In a run of chunks with no interruption, chunk [i]
    starts at the maximum of the cursor and the output clock read when it
    is handled, and the cursor then moves to that start plus the chunk's
    duration.  Hence the start is at least the first start plus the
    durations of the chunks before it (no overlap), it equals that sum
    (no gap) when every later chunk was handled while the clock had not
    passed the cursor, and start times never decrease. *)
Theorem scheduler_starts (chunks : list (Q * AudioBuffer)) (a : App) (i : nat) :
  (i < List.length chunks)%nat ->
  nth i (startsOf chunks a) 0 = Qmax (cursorBefore chunks a i) (arrival chunks i) /\
  cursorBefore chunks a (S i) =
    nth i (startsOf chunks a) 0 + duration (snd (nth i chunks (0, silence 0))) /\
  nth 0 (startsOf chunks a) 0 + sumDurations (firstn i chunks)
    <= nth i (startsOf chunks a) 0 /\
  ((forall j, (0 < j <= i)%nat -> arrival chunks j <= cursorBefore chunks a j) ->
   nth i (startsOf chunks a) 0 ==
     nth 0 (startsOf chunks a) 0 + sumDurations (firstn i chunks)) /\
  ((S i < List.length chunks)%nat ->
   nth i (startsOf chunks a) 0 <= nth (S i) (startsOf chunks a) 0).
Proof.
  intros Hi. repeat split.
  - apply start_is_max, Hi.
  - apply cursor_advances, Hi.
  - apply starts_lower_bound, Hi.
  - apply starts_gapless, Hi.
  - apply starts_monotone.
Qed.

Lemma scheduler_starts_witness :
  let chunks := [(0, silence 2400); (1 # 20, silence 1200); (9, silence 2400)] in
  nth 1 (startsOf chunks initial) 0 == 1 # 10 /\
  nth 1 (startsOf chunks initial) 0 <= nth 2 (startsOf chunks initial) 0.
Proof.
  intros chunks.
  destruct (@scheduler_starts chunks initial 1 ltac:(simpl; lia))
    as (_ & _ & _ & Hgap & Hmono).
  split.
  - rewrite Hgap; [reflexivity|].
    intros j Hj. assert (j = 1%nat) as -> by lia. vm_compute. discriminate.
  - apply Hmono. simpl. lia.
Defined.

End Scheduler.

(** ** Interruption *)

Section Interruption.

Variables (currentTime : Q) (date : N).

Lemma set_add_incl (x : SourceNode) (l : list SourceNode) : incl l (set_add x l).
Proof.
  unfold set_add. destruct (existsb (Nat.eqb x) l).
  - apply incl_refl.
  - apply incl_appl, incl_refl.
Qed.

Lemma handleAudio_keeps_active (message : Msg.LiveServerMessage) (a a1 : App) :
  handleAudio currentTime message a = Returned a1 ->
  incl (activeSourcesRef a) (activeSourcesRef a1).
Proof.
  unfold handleAudio.
  destruct (base64Audio message) as [[payload|]|e]; try discriminate.
  - destruct (truthy payload).
    + destruct (bind (decode payload) _) as [buf|e]; [|discriminate].
      intros [= <-]. destruct a. simpl. apply set_add_incl.
    + intros [= <-]. apply incl_refl.
  - intros [= <-]. apply incl_refl.
Qed.

(** The aggregator does not touch the scheduler. *)
Lemma aggregator_frame (message : Msg.LiveServerMessage) (a : App) :
  let b := handleTurnComplete date message (handleTranscriptions message a) in
  trace b = trace a /\ activeSourcesRef b = activeSourcesRef a /\
  nextStartTimeRef b = nextStartTimeRef a /\
  createdSources b = createdSources a.
Proof.
  unfold handleTurnComplete, handleTranscriptions, completeTurn.
  destruct (Msg.serverContent message) as [sc|]; [|simpl; auto].
  destruct (Msg.flag (Msg.turnComplete sc)), (Msg.outputTranscription sc),
    (Msg.inputTranscription sc);
    try destruct (truthy _ || truthy _); simpl; auto.
Qed.

Lemma interrupt_spec (a : App) :
  trace (interrupt a) = trace a ++ map SourceStop (activeSourcesRef a) /\
  activeSourcesRef (interrupt a) = [] /\
  nextStartTimeRef (interrupt a) = 0.
Proof. destruct a. simpl. auto. Qed.

Lemma stoppedSources_stops (l : list SourceNode) :
  stoppedSources (map SourceStop l) = l.
Proof. induction l as [|x l IH]; simpl; [|rewrite IH]; reflexivity. Qed.

(** A message with the interrupted flag, handled in one piece: every
    source in the active set is stopped (the [k] sources active before
    the message, and the one the same message may have started), the
    active set is empty and the cursor is 0.  A chunk scheduled on that
    state starts at the maximum of 0 and the output clock, which is the
    clock itself; the cursor from before the interruption plays no
    part. *)
Lemma interrupted_in_one_piece (message : Msg.LiveServerMessage)
    (sc : Msg.ServerContent) (a a1 : App) :
  Msg.serverContent message = Some sc ->
  Msg.flag (Msg.interrupted sc) = true ->
  handleAudio currentTime message a = Returned a1 ->
  let a' := final (onmessage currentTime date message a) in
  onmessage currentTime date message a = Returned a' /\
  incl (activeSourcesRef a) (activeSourcesRef a1) /\
  trace a' = trace a1 ++ map SourceStop (activeSourcesRef a1) /\
  (a1 = a ->
   stoppedSources (skipn (List.length (trace a)) (trace a')) = activeSourcesRef a) /\
  activeSourcesRef a' = [] /\
  nextStartTimeRef a' = 0 /\
  (forall chunk,
     startsOf [chunk] a' = [Qmax 0 (fst chunk)] /\
     (0 <= fst chunk -> Qmax 0 (fst chunk) == fst chunk)).
Proof.
  intros Hsc Hflag Hrun a'.
  assert (E : onmessage currentTime date message a =
              Returned (interrupt (handleTurnComplete date message
                                     (handleTranscriptions message a1)))).
  { unfold onmessage. rewrite Hrun. simpl. unfold handleInterrupted.
    rewrite Hsc, Hflag. reflexivity. }
  subst a'. rewrite E. cbn [final].
  pose proof (aggregator_frame message a1) as (Ht & Ha & _). simpl in Ht, Ha.
  destruct (interrupt_spec (handleTurnComplete date message
                              (handleTranscriptions message a1)))
    as (Htr & Hact & Hcur).
  rewrite Ht, Ha in Htr.
  split; [reflexivity|].
  split; [eapply handleAudio_keeps_active, Hrun|].
  split; [exact Htr|].
  split.
  { intros ->. rewrite Htr, skipn_length_app. apply stoppedSources_stops. }
  split; [exact Hact|].
  split; [exact Hcur|].
  intros chunk. split.
  - rewrite startsOf_cons, startsOf_nil, Hcur. reflexivity.
  - intros Hnow. apply Q.max_r. exact Hnow.
Qed.

End Interruption.

Example interrupted_on_live_session :
  let a' := final (onmessage 3 0 interruptedMessage liveSession) in
  trace a' = [SourceStop 0%nat; SourceStop 1%nat] /\
  activeSourcesRef a' = [] /\
  nextStartTimeRef a' = 0 /\
  startsOf [(3, silence 2400)] a' = [Qmax 0 3].
Proof.
  destruct (@interrupted_in_one_piece 3 0%N interruptedMessage _ liveSession
              liveSession eq_refl eq_refl eq_refl)
    as (_ & _ & Htr & _ & Hact & Hcur & Hnext).
  split; [exact Htr|]. split; [exact Hact|]. split; [exact Hcur|].
  exact (proj1 (Hnext (3, silence 2400))).
Defined.

(** ** From messages to scheduler runs *)

(** A message whose payload decodes to a buffer is one step of a
    scheduler run. *)
Lemma handleAudio_plays (currentTime : Q) (message : Msg.LiveServerMessage)
    (payload : jsstring) (audioBuffer : AudioBuffer) (a : App) :
  base64Audio message = Ok (Some payload) ->
  truthy payload = true ->
  bind (decode payload) (fun bytes => decodeAudioData bytes 24000 1) = Ok audioBuffer ->
  handleAudio currentTime message a = Returned (playChunk (currentTime, audioBuffer) a).
Proof.
  intros Hp Ht Hd. unfold handleAudio. rewrite Hp, Ht, Hd. reflexivity.
Qed.

(** Four zero bytes are two frames of silence: the source starts at the
    clock and the cursor moves on by 2/24000. *)
Example onmessage_two_frames :
  let a' := final (onmessage 3 0 (audioMessage (str "AAAAAA==")) initial) in
  scheduledStarts (trace a') = [3] /\
  nextStartTimeRef a' == 3 + (2 # 24000) /\
  activeSourcesRef a' = [0%nat].
Proof. vm_compute. repeat split; congruence. Qed.

(** A run of messages that none throws on and none interrupts drives
    the scheduler through exactly the chunks the messages carry. *)
Section MessageRuns.

Lemma playChunk_view (c : Q * AudioBuffer) (a b : App) :
  schedulerView a = schedulerView b ->
  schedulerView (playChunk c a) = schedulerView (playChunk c b).
Proof.
  destruct a, b. unfold schedulerView. simpl.
  intros [= -> -> -> ->]. reflexivity.
Qed.

Lemma playChunks_view (cs : list (Q * AudioBuffer)) (a b : App) :
  schedulerView a = schedulerView b ->
  schedulerView (playChunks cs a) = schedulerView (playChunks cs b).
Proof.
  revert a b. induction cs as [|c cs IH]; intros a b H; simpl; [exact H|].
  apply IH, playChunk_view, H.
Qed.

Lemma handle_view (ev : event) (a a1 : App) :
  handle ev a = Returned a1 ->
  isInterrupted ev = false ->
  schedulerView a1 =
    schedulerView (match chunkOf ev with Some c => playChunk c a | None => a end).
Proof.
  destruct ev as [[currentTime date] message].
  unfold handle, onmessage, isInterrupted, chunkOf. intros Hrun Hint.
  assert (Hskip : forall x, handleInterrupted message x = x).
  { intros x. unfold handleInterrupted.
    destruct (Msg.serverContent message) as [sc|]; [|reflexivity].
    rewrite Hint. reflexivity. }
  assert (Hview : forall x,
            schedulerView (handleTurnComplete date message
                             (handleTranscriptions message x)) = schedulerView x).
  { intros x. unfold schedulerView.
    destruct (aggregator_frame date message x) as (-> & -> & -> & ->).
    reflexivity. }
  unfold handleAudio in Hrun.
  destruct (base64Audio message) as [[payload|]|e]; simpl in Hrun; try discriminate.
  - destruct (truthy payload); simpl in Hrun.
    + destruct (bind (decode payload) _) as [buf|e]; simpl in Hrun; [|discriminate].
      injection Hrun as <-. rewrite Hskip. apply Hview.
    + injection Hrun as <-. rewrite Hskip. apply Hview.
  - injection Hrun as <-. rewrite Hskip. apply Hview.
Qed.

Lemma runMessages_view (events : list event) (a a' : App) :
  runMessages events a = Returned a' ->
  forallb (fun ev => negb (isInterrupted ev)) events = true ->
  schedulerView a' = schedulerView (playChunks (chunksOf events) a).
Proof.
  revert a. induction events as [|ev rest IH]; intros a Hrun Hall.
  - injection Hrun as <-. reflexivity.
  - simpl in Hrun, Hall. apply andb_true_iff in Hall. destruct Hall as [Hev Hrest].
    apply negb_true_iff in Hev.
    destruct (handle ev a) as [a1|e a1] eqn:E; simpl in Hrun; [|discriminate].
    rewrite (IH a1 Hrun Hrest).
    unfold chunksOf. cbn [flat_map]. fold (chunksOf rest).
    unfold playChunks. rewrite fold_left_app. fold (playChunks (chunksOf rest)).
    apply playChunks_view. rewrite (handle_view ev a E Hev).
    destruct (chunkOf ev); reflexivity.
Qed.

(** The start times such a run schedules are the ones of the scheduler
    run over its chunks. *)
Lemma runMessages_starts (events : list event) (a a' : App) :
  runMessages events a = Returned a' ->
  forallb (fun ev => negb (isInterrupted ev)) events = true ->
  skipn (List.length (scheduledStarts (trace a))) (scheduledStarts (trace a'))
    = startsOf (chunksOf events) a.
Proof.
  intros Hrun Hall. pose proof (runMessages_view events a Hrun Hall) as H.
  unfold schedulerView in H. injection H as _ _ _ ->. reflexivity.
Qed.

End MessageRuns.

(** ** Instances on sample states *)

Lemma stopConversation_idempotent_witness :
  stopConversation (stopConversation liveSession) = stopConversation liveSession /\
  In (SessionClose 7%nat) (trace (stopConversation liveSession)) /\
  In (TrackStop 0%nat) (trace (stopConversation liveSession)) /\
  In (SourceStop 1%nat) (trace (stopConversation liveSession)).
Proof.
  destruct (stopConversation_idempotent liveSession)
    as (Htwice & _ & _ & _ & _ & Hs & Hm & Ha & _).
  split; [exact Htwice|].
  split; [exact (Hs 7%nat eq_refl)|].
  split; [exact (Hm [0%nat] 0%nat eq_refl (or_introl eq_refl))|].
  exact (Ha 1%nat (or_intror (or_introl eq_refl))).
Defined.


(** The transport's [onError] on the connected sample session. *)
Example onerror_on_live_session :
  connectionState (onerror liveSession) = DISCONNECTED /\
  trace (onerror liveSession) =
    [SessionClose 7%nat; TrackStop 0%nat; SourceStop 0%nat; SourceStop 1%nat].
Proof. split; reflexivity. Qed.

(** * Further properties of the code *)

(** ** The transport text *)

Section TransportText.

Import Base64.

Lemma bytes_below_256 (bytes : list byte) :
  Forall (fun a => (a < 256)%N) (map Byte.to_N bytes).
Proof.
  apply Forall_map, Forall_forall. intros b _.
  pose proof (Byte.to_N_bounded b). simpl. lia.
Qed.

(** [encode] never throws; its text is the alphabet characters of the
    6-bit groups followed by the padding. *)
Lemma encode_ok (bytes : list byte) :
  encode bytes =
    Ok (map alphabet (sextets (map Byte.to_N bytes)) ++ padding (List.length bytes)).
Proof.
  unfold encode, btoa.
  assert (H : forallb (fun c => (c <? 256)%N) (map Byte.to_N bytes) = true).
  { apply forallb_forall. intros c Hc. apply N.ltb_lt.
    revert c Hc. apply Forall_forall, bytes_below_256. }
  rewrite H, length_map. reflexivity.
Qed.

Lemma decode_of_encode (bytes : list byte) (t : jsstring) :
  encode bytes = Ok t -> decode t = Ok bytes.
Proof.
  intros E. pose proof (atob_btoa (bytes_below_256 bytes)) as H.
  unfold encode in E. rewrite E in H. cbn [bind] in H.
  unfold decode. rewrite H. cbn [bind]. f_equal.
  rewrite map_map. rewrite <- (map_id bytes) at 2.
  apply map_ext. intros b. apply uint8_of_to_N.
Qed.

Lemma div3_SSS (n : nat) : ((S (S (S n)) + 2) / 3 = S ((n + 2) / 3))%nat.
Proof.
  replace (S (S (S n)) + 2)%nat with ((n + 2) + 1 * 3)%nat by lia.
  rewrite Nat.div_add by lia. lia.
Qed.

Lemma encoded_text_length (s : list N) :
  List.length (map alphabet (sextets s) ++ padding (List.length s))
    = (4 * ((List.length s + 2) / 3))%nat.
Proof.
  induction s as [|a|a b|a b c l IH] using list_ind3; try reflexivity.
  cbn [sextets map app List.length]. rewrite padding_SSS.
  rewrite div3_SSS. rewrite IH. lia.
Qed.

(** The text of [n] bytes has [4 * ceil(n / 3)] characters. *)
Theorem encode_length (bytes : list byte) :
  exists t, encode bytes = Ok t /\
            List.length t = (4 * ((List.length bytes + 2) / 3))%nat.
Proof.
  eexists. split; [apply encode_ok|].
  rewrite <- (length_map Byte.to_N bytes) at 2.
  rewrite <- (length_map Byte.to_N bytes) at 1.
  apply encoded_text_length.
Qed.

(** The text is made of the 64 alphabet characters and [=] only. *)
Theorem encode_text_safe (bytes : list byte) (t : jsstring) :
  encode bytes = Ok t ->
  Forall (fun c => index c <> None \/ c = pad) t.
Proof.
  rewrite encode_ok. intros [= <-]. apply Forall_app. split.
  - apply Forall_map. eapply Forall_impl;
      [|apply sextets_bound, bytes_below_256].
    intros i Hi. simpl. left. rewrite (index_alphabet Hi). discriminate.
  - destruct (padding_cases (List.length bytes)) as [-> | [-> | ->]];
      repeat constructor; right; reflexivity.
Qed.

Lemma encode_text_safe_witness :
  Forall (fun c => index c <> None \/ c = pad) (str "SGk=").
Proof.
  apply (@encode_text_safe [x48; x69] (str "SGk=")). reflexivity.
Defined.

(** Different byte sequences have different texts. *)
Theorem encode_injective (b1 b2 : list byte) :
  encode b1 = encode b2 -> b1 = b2.
Proof.
  intros E.
  pose proof (decode_of_encode b1 (encode_ok b1)) as H1.
  pose proof (decode_of_encode b2 (encode_ok b2)) as H2.
  rewrite !encode_ok in E. injection E as E. rewrite E in H1.
  rewrite H1 in H2. injection H2 as ->. reflexivity.
Qed.

Lemma encode_injective_witness : [x48] = [x48].
Proof. apply encode_injective. reflexivity. Defined.

Lemma filter_whitespace_all (w : jsstring) :
  Forall (fun c => is_ascii_whitespace c = true) w ->
  filter (fun c => negb (is_ascii_whitespace c)) w = [].
Proof.
  induction 1 as [|c w Hc _ IH]; simpl; [reflexivity|].
  rewrite Hc. simpl. exact IH.
Qed.

(** [decode] skips ASCII whitespace (TAB, LF, FF, CR, SPACE) wherever it
    stands in the text. *)
Theorem decode_ignores_whitespace (t1 w t2 : jsstring) :
  Forall (fun c => is_ascii_whitespace c = true) w ->
  decode (t1 ++ w ++ t2) = decode (t1 ++ t2).
Proof.
  intros Hw. unfold decode, atob.
  rewrite !filter_app, (filter_whitespace_all Hw). reflexivity.
Qed.

Lemma decode_ignores_whitespace_witness :
  decode (str "SG" ++ [10; 32]%N ++ str "k=") = decode (str "SG" ++ str "k=").
Proof.
  apply decode_ignores_whitespace. repeat constructor.
Defined.

Lemma indices_none (d : jsstring) (c : code_unit) :
  In c d -> index c = None -> indices d = None.
Proof.
  induction d as [|x d IH]; intros Hin Hc; [destruct Hin|].
  destruct Hin as [-> | Hin]; simpl.
  - rewrite Hc. reflexivity.
  - rewrite (IH Hin Hc). destruct (index x); reflexivity.
Qed.

Lemma drop_pad_keeps (l : jsstring) (c : code_unit) :
  In c l -> c <> pad -> In c (drop_pad l).
Proof.
  intros Hin Hc. destruct l as [|x l]; [destruct Hin|]. simpl.
  destruct (N.eqb_spec x pad) as [-> | _]; [|exact Hin].
  destruct Hin as [E | Hin]; [congruence | exact Hin].
Qed.

Lemma strip_padding_keeps (d : jsstring) (c : code_unit) :
  In c d -> c <> pad -> In c (strip_padding d).
Proof.
  intros Hin Hc. unfold strip_padding.
  destruct (List.length d mod 4 =? 0)%nat; [|exact Hin].
  apply in_rev. rewrite rev_involutive.
  apply drop_pad_keeps; [|exact Hc]. apply drop_pad_keeps; [|exact Hc].
  apply in_rev in Hin. exact Hin.
Qed.

(** A text with a character that is neither of the alphabet, nor [=],
    nor ASCII whitespace makes [decode] throw. *)
Theorem decode_rejects_foreign (t : jsstring) (c : code_unit) :
  In c t -> index c = None -> c <> pad -> is_ascii_whitespace c = false ->
  decode t = Throw InvalidCharacterError.
Proof.
  intros Hin Hidx Hpad Hws. unfold decode, atob.
  set (d := strip_padding (filter (fun c => negb (is_ascii_whitespace c)) t)).
  assert (Hd : In c d).
  { apply strip_padding_keeps; [|exact Hpad].
    apply filter_In. split; [exact Hin|]. rewrite Hws. reflexivity. }
  rewrite (indices_none d c Hd Hidx).
  destruct (List.length d mod 4 =? 1)%nat; reflexivity.
Qed.

Lemma decode_rejects_foreign_witness :
  decode (str "SG!k") = Throw InvalidCharacterError.
Proof.
  apply (@decode_rejects_foreign (str "SG!k") 33%N).
  - simpl. auto.
  - reflexivity.
  - discriminate.
  - reflexivity.
Defined.

(** A text whose length, whitespace apart, is 1 modulo 4 makes [decode]
    throw, whatever its characters. *)
Theorem decode_rejects_length (t : jsstring) :
  (List.length (filter (fun c => negb (is_ascii_whitespace c)) t) mod 4 = 1)%nat ->
  decode t = Throw InvalidCharacterError.
Proof.
  intros H. unfold decode, atob.
  set (d := filter (fun c => negb (is_ascii_whitespace c)) t) in *.
  assert (E : strip_padding d = d) by (unfold strip_padding; rewrite H; reflexivity).
  rewrite E, H. reflexivity.
Qed.

Lemma decode_rejects_length_witness :
  decode (str "SGk= A") = Throw InvalidCharacterError.
Proof. apply decode_rejects_length. reflexivity. Defined.

End TransportText.

(** ** Samples on the wire *)

Section WireSamples.

(** Whatever number is stored, an [Int16Array] element is a signed 16-bit
    integer. *)
Theorem ToInt16_range (x : Q) : int16_range (ToInt16 x).
Proof.
  unfold int16_range, ToInt16.
  pose proof (Z.mod_pos_bound (Qtrunc x) 65536 ltac:(lia)) as B.
  destruct (32768 <=? Qtrunc x mod 65536)%Z eqn:E;
    [apply Z.leb_le in E | apply Z.leb_gt in E]; lia.
Qed.

(** On the 16-bit samples the two conversions are exact inverses:
    dividing by 32768 and scaling back gives the sample again. *)
Theorem toInt16_toFloat (n : Z) : int16_range n -> toInt16 (toFloat n) = n.
Proof.
  intros Hn. unfold toInt16.
  assert (E : Qtrunc (toFloat n * 32768) = n).
  { unfold Qtrunc, toFloat, Qdiv, Qmult, Qinv, inject_Z. cbn [Qnum Qden].
    change (Z.pos (1 * 32768 * 1)) with 32768%Z.
    replace (n * 1 * 32768)%Z with (n * 32768)%Z by lia.
    apply Z.quot_mul. discriminate. }
  rewrite ToInt16_small; rewrite E; [reflexivity | exact Hn].
Qed.

Lemma toInt16_toFloat_witness : toInt16 (toFloat (-12345)) = (-12345)%Z.
Proof. apply toInt16_toFloat. unfold int16_range. lia. Defined.

Lemma to_N_uint8 (n : N) : Byte.to_N (uint8_of_N n) = (n mod 256)%N.
Proof.
  unfold uint8_of_N.
  destruct (Byte.of_N (n mod 256)) as [b|] eqn:E.
  - apply Byte.to_of_N. exact E.
  - apply Byte.of_N_None_iff in E.
    pose proof (N.mod_upper_bound n 256 ltac:(discriminate)). lia.
Qed.

Lemma int16_of_bytes_range (lo hi : byte) : int16_range (int16_of_bytes lo hi).
Proof.
  unfold int16_range, int16_of_bytes.
  pose proof (Byte.to_N_bounded lo). pose proof (Byte.to_N_bounded hi).
  destruct (32768 <=? _)%Z eqn:E;
    [apply Z.leb_le in E | apply Z.leb_gt in E]; lia.
Qed.

Lemma int16_of_int16_bytes (n : Z) :
  int16_range n ->
  exists lo hi, int16_bytes n = [lo; hi] /\ int16_of_bytes lo hi = n.
Proof.
  intros Hn. unfold int16_bytes. do 2 eexists. split; [reflexivity|].
  unfold int16_of_bytes. rewrite !to_N_uint8.
  set (u := Z.to_N (n mod 65536)).
  assert (Hu : Z.of_N u = (n mod 65536)%Z).
  { unfold u. rewrite Z2N.id; [reflexivity|]. apply Z.mod_pos_bound. lia. }
  assert (E : (Z.of_N (u mod 256 mod 256) + 256 * Z.of_N ((u / 256) mod 256)
               = n mod 65536)%Z).
  { rewrite <- Hu. unfold int16_range in Hn. divmod_lia. }
  rewrite E. unfold int16_range in Hn.
  destruct (32768 <=? n mod 65536)%Z eqn:C;
    [apply Z.leb_le in C | apply Z.leb_gt in C];
    Z.to_euclidean_division_equations; lia.
Qed.

Lemma int16s_of_bytes_of_int16s (l : list Z) :
  Forall int16_range l -> int16s_of_bytes (bytes_of_int16s l) = Ok l.
Proof.
  induction 1 as [|n l Hn _ IH]; [reflexivity|].
  destruct (int16_of_int16_bytes Hn) as (lo & hi & Eb & En).
  unfold bytes_of_int16s in *. cbn [flat_map]. rewrite Eb.
  cbn [app int16s_of_bytes]. rewrite IH. cbn [bind]. rewrite En. reflexivity.
Qed.

(** Laying 16-bit samples out as bytes and viewing the bytes as 16-bit
    samples again gives the samples back. *)
Theorem int16s_bytes_roundtrip (l : list Z) :
  Forall int16_range l -> int16s_of_bytes (bytes_of_int16s l) = Ok l.
Proof. apply int16s_of_bytes_of_int16s. Qed.

Lemma int16s_bytes_roundtrip_witness :
  int16s_of_bytes (bytes_of_int16s [-32768; -1; 0; 32767]%Z)
    = Ok [-32768; -1; 0; 32767]%Z.
Proof.
  apply int16s_bytes_roundtrip. repeat constructor; unfold int16_range; lia.
Defined.

Lemma list_ind2 (A : Type) (P : list A -> Prop) :
  P [] ->
  (forall a, P [a]) ->
  (forall a b l, P l -> P (a :: b :: l)) ->
  forall l, P l.
Proof.
  intros H0 H1 H2 l.
  assert (H : P l /\ forall a, P (a :: l)).
  { induction l as [|x l (IH0 & IH1)]; split; auto. }
  apply H.
Qed.

Lemma even_SS_div2 (n : nat) : (S (S n) / 2 = S (n / 2))%nat.
Proof.
  replace (S (S n)) with (n + 1 * 2)%nat by lia.
  rewrite Nat.div_add by lia. lia.
Qed.

(** The view of a byte array as 16-bit samples: a [RangeError] on an odd
    length, else half as many samples, each in range. *)
Lemma int16s_of_bytes_cases (data : list byte) :
  if Nat.odd (List.length data)
  then int16s_of_bytes data = Throw RangeError
  else exists l, int16s_of_bytes data = Ok l /\
                 List.length l = (List.length data / 2)%nat /\
                 Forall int16_range l.
Proof.
  induction data as [|a|a b l IH] using list_ind2.
  - simpl. exists []. repeat split. constructor.
  - reflexivity.
  - cbn [List.length]. rewrite Nat.odd_succ, Nat.even_succ.
    cbn [int16s_of_bytes].
    destruct (Nat.odd (List.length l)).
    + rewrite IH. reflexivity.
    + destruct IH as (l' & -> & Hlen & Hall). cbn [bind].
      eexists. split; [reflexivity|]. split.
      * cbn [List.length]. rewrite Hlen, even_SS_div2. reflexivity.
      * constructor; [apply int16_of_bytes_range | exact Hall].
Qed.

(** How [decodeAudioData] ends at a sample rate and a channel count that
    [createBuffer] must accept: a [RangeError] on an odd number of bytes,
    a [NotSupportedError] when the bytes do not make one frame, and else a
    buffer of [bytes / 2 / channels] frames at the given rate, with one
    list of that many samples per channel. *)
Theorem decodeAudioData_outcome (data : list byte) (rate channels : positive) :
  nominalRate rate = true ->
  nominalChannels channels = true ->
  let samples := (List.length data / 2)%nat in
  let frames := (samples / Pos.to_nat channels)%nat in
  if Nat.odd (List.length data)
  then decodeAudioData data rate channels = Throw RangeError
  else if (frames =? 0)%nat
  then decodeAudioData data rate channels = Throw NotSupportedError
  else exists b, decodeAudioData data rate channels = Ok b /\
         frameCount b = frames /\
         numberOfChannels b = Pos.to_nat channels /\
         sampleRate b = rate /\
         duration b == Z.of_nat frames # rate /\
         List.length (channelData b) = Pos.to_nat channels /\
         Forall (fun ch => List.length ch = frames) (channelData b).
Proof.
  intros Hrate Hchannels samples frames. unfold decodeAudioData.
  pose proof (int16s_of_bytes_cases data) as H.
  destruct (Nat.odd (List.length data)).
  - rewrite H. reflexivity.
  - destruct H as (l & -> & Hlen & _). cbn [bind]. rewrite Hlen.
    fold samples. fold frames. rewrite Hrate, Hchannels.
    destruct (frames =? 0)%nat; [reflexivity|]. cbn [orb negb].
    eexists. split; [reflexivity|]. cbn.
    repeat split; try reflexivity.
    + rewrite length_map, length_seq. reflexivity.
    + apply Forall_map, Forall_forall. intros c _.
      rewrite length_map, length_seq. reflexivity.
Qed.

Lemma decodeAudioData_outcome_witness :
  decodeAudioData [x00; x01; x02] 24000 1 = Throw RangeError /\
  decodeAudioData [] 24000 1 = Throw NotSupportedError /\
  exists b, decodeAudioData [x00; x01; x02; x03] 24000 1 = Ok b /\ frameCount b = 2%nat.
Proof.
  split; [exact (@decodeAudioData_outcome [x00; x01; x02] 24000 1 eq_refl eq_refl)|].
  split; [exact (@decodeAudioData_outcome [] 24000 1 eq_refl eq_refl)|].
  destruct (@decodeAudioData_outcome [x00; x01; x02; x03] 24000 1 eq_refl eq_refl)
    as (b & Hb & Hframes & _).
  exists b. split; [exact Hb | exact Hframes].
Defined.

(** Outside the nominal ranges no buffer is made. *)
Lemma decodeAudioData_out_of_range (data : list byte) (rate channels : positive)
    (b : AudioBuffer) :
  decodeAudioData data rate channels = Ok b ->
  nominalRate rate = true /\ nominalChannels channels = true.
Proof.
  unfold decodeAudioData.
  destruct (int16s_of_bytes data) as [l|e]; cbn [bind]; [|discriminate].
  destruct (nominalRate rate), (nominalChannels channels);
    rewrite ?orb_true_r; cbn [negb orb]; rewrite ?orb_true_r; try discriminate.
  auto.
Qed.

Lemma toFloat_range (n : Z) : int16_range n -> -1 <= toFloat n /\ toFloat n < 1.
Proof.
  unfold int16_range, toFloat, Qdiv, Qmult, Qinv, inject_Z, Qle, Qlt.
  cbn [Qnum Qden]. intros H. split; lia.
Qed.

(** Every sample of a decoded buffer lies in [-1, 1). *)
Theorem decoded_samples_range (data : list byte) (rate channels : positive)
    (b : AudioBuffer) :
  decodeAudioData data rate channels = Ok b ->
  Forall (Forall (fun s => -1 <= s /\ s < 1)) (channelData b).
Proof.
  unfold decodeAudioData. pose proof (int16s_of_bytes_cases data) as H.
  destruct (int16s_of_bytes data) as [l|e]; cbn [bind]; [|discriminate].
  assert (Hall : Forall int16_range l).
  { destruct (Nat.odd (List.length data)); [discriminate|].
    destruct H as (l' & [= <-] & _ & Hall). exact Hall. }
  destruct (_ || _ || _); [discriminate|]. intros [= <-]. cbn [channelData].
  apply Forall_map, Forall_forall. intros c _.
  apply Forall_map, Forall_forall. intros i _.
  apply toFloat_range.
  destruct (nth_in_or_default (i * Pos.to_nat channels + c) l 0%Z) as [Hin | ->].
  - revert Hin. apply Forall_forall. exact Hall.
  - unfold int16_range. lia.
Qed.

Lemma decoded_samples_range_witness :
  Forall (Forall (fun s => -1 <= s /\ s < 1))
         [[toFloat (-1); toFloat 0]].
Proof.
  apply (@decoded_samples_range [xff; xff; x00; x00] 24000 1
           {| numberOfChannels := 1; frameCount := 2; sampleRate := 24000;
              channelData := [[toFloat (-1); toFloat 0]] |}).
  reflexivity.
Defined.

Lemma map_nth_seq (A B : Type) (f : A -> B) (d : A) (l : list A) :
  map (fun i => f (nth (i * 1 + 0) l d)) (seq 0 (List.length l)) = map f l.
Proof.
  induction l as [|x l IH]; [reflexivity|].
  cbn [List.length seq map]. f_equal.
  rewrite <- seq_shift, map_map. rewrite <- IH.
  apply map_ext. intros i. reflexivity.
Qed.

Lemma bytes_of_toInt16 (data : list Q) :
  int16s_of_bytes (bytes_of_int16s (map toInt16 data)) = Ok (map toInt16 data).
Proof.
  apply int16s_of_bytes_of_int16s, Forall_map, Forall_forall.
  intros s _. apply ToInt16_range.
Qed.

(** From capture to playback: the blob [createBlob] makes of a frame that
    is not empty decodes, through [decode] and [decodeAudioData] on one
    channel at a rate [createBuffer] accepts, to a buffer of as many
    frames whose samples are the frame's samples after the conversion to
    16 bits and back. *)
Theorem blob_decodes (data : list Q) (rate : positive) :
  data <> [] ->
  nominalRate rate = true ->
  exists blob b,
    createBlob data = Ok blob /\
    mimeType blob = str "audio/pcm;rate=16000" /\
    bind (decode (blob_data blob)) (fun bytes => decodeAudioData bytes rate 1) = Ok b /\
    frameCount b = List.length data /\
    sampleRate b = rate /\
    channelData b = [map (fun s => toFloat (toInt16 s)) data].
Proof.
  intros Hne Hrate. destruct data as [|s0 rest]; [contradiction|].
  set (data := s0 :: rest). unfold createBlob.
  rewrite encode_ok. cbn [bind]. do 2 eexists.
  split; [reflexivity|]. split; [reflexivity|]. cbn [blob_data].
  rewrite (decode_of_encode _ (encode_ok _)). cbn [bind].
  unfold decodeAudioData. rewrite bytes_of_toInt16. cbn [bind].
  rewrite length_map. change (Pos.to_nat 1) with 1%nat. rewrite Nat.div_1_r.
  change (List.length data =? 0)%nat with false. rewrite Hrate.
  change (nominalChannels 1) with true. cbn [orb negb].
  split; [reflexivity|]. cbn [frameCount channelData sampleRate].
  split; [reflexivity|]. split; [reflexivity|].
  cbn [seq map]. f_equal.
  rewrite <- (length_map toInt16 data).
  rewrite (map_nth_seq toFloat 0%Z (map toInt16 data)).
  apply map_map.
Qed.

Lemma blob_decodes_witness :
  exists blob b,
    createBlob [1 # 2; -1 # 4] = Ok blob /\
    mimeType blob = str "audio/pcm;rate=16000" /\
    bind (decode (blob_data blob)) (fun bytes => decodeAudioData bytes 16000 1) = Ok b /\
    frameCount b = 2%nat /\
    sampleRate b = 16000%positive /\
    channelData b = [map (fun s => toFloat (toInt16 s)) [1 # 2; -1 # 4]].
Proof. apply (@blob_decodes [1 # 2; -1 # 4] 16000); [discriminate | reflexivity]. Defined.

End WireSamples.

(** ** The two stretches of the message handler *)

Section Stretches.

(** Run in one piece, the handler is its first stretch followed at once
    by its second. *)
Lemma onmessage_stretches (currentTime : Q) (date : N)
    (message : Msg.LiveServerMessage) (a : App) :
  onmessage currentTime date message a =
    match onmessage_begin currentTime date message a with
    | Finished o => o
    | Awaiting audioBuffer a1 =>
        Returned (onmessage_resume date message audioBuffer a1)
    end.
Proof.
  unfold onmessage, onmessage_begin, onmessage_resume, afterAudio, handleAudio.
  destruct (base64Audio message) as [[payload|]|e]; try reflexivity.
  destruct (truthy payload); [|reflexivity].
  destruct (bind (decode payload) _); reflexivity.
Qed.

(** The first stretch either is the whole handler, or stops at the
    [await] having only raised the cursor. *)
Lemma onmessage_begin_cases (currentTime : Q) (date : N)
    (message : Msg.LiveServerMessage) (a : App) :
  onmessage_begin currentTime date message a
    = Finished (onmessage currentTime date message a) \/
  exists audioBuffer,
    onmessage_begin currentTime date message a
      = Awaiting audioBuffer (catchUp currentTime a).
Proof.
  rewrite onmessage_stretches. unfold onmessage_begin.
  destruct (base64Audio message) as [[payload|]|e]; auto.
  destruct (truthy payload); auto.
  destruct (bind (decode payload) _); eauto.
Qed.

Lemma act_MessageBegin_cases (currentTime : Q) (date : N)
    (message : Msg.LiveServerMessage) (a : App) :
  act (MessageBegin currentTime date message) a
    = final (onmessage currentTime date message a) \/
  act (MessageBegin currentTime date message) a = catchUp currentTime a.
Proof.
  cbn [act].
  destruct (onmessage_begin_cases currentTime date message a) as [-> | (b & ->)]; auto.
Qed.

(** [sendTextMessage] ends in the state it found, or in that state with
    one send and one user entry more. *)
Lemma sendTextMessage_cases (sent : option exn) (date : N) (text : jsstring) (a : App) :
  final (sendTextMessage sent date text a) = a \/
  exists session,
    final (sendTextMessage sent date text a) =
      setTranscriptions
        (fun prev => prev ++ [{| role := user; text := text; timestamp := date |}])
        (perform [SessionSend session text] a).
Proof.
  unfold sendTextMessage.
  destruct (sessionRef a) as [session|]; auto.
  destruct (connectionState a); auto.
  destruct sent; simpl; eauto.
Qed.

End Stretches.

(** ** What the scheduler keeps true *)

Section SchedulerInvariant.

Ltac fields :=
  cbv [startSource catchUp interrupt onended createBufferSource perform
       set_nextStartTime set_activeSources set_session set_micStream
       set_outputTranscription set_inputTranscription setConnectionState
       setTranscriptions setIsListening] in *;
  cbn [final connectionState transcriptions isListening nextStartTimeRef
       activeSourcesRef sessionRef micStreamRef currentOutputTranscriptionRef
       currentInputTranscriptionRef createdSources trace] in *.

Lemma startedSources_app (t1 t2 : list effect) :
  startedSources (t1 ++ t2) = startedSources t1 ++ startedSources t2.
Proof.
  induction t1 as [|e t1 IH]; simpl; [reflexivity|].
  destruct e; simpl; rewrite IH; reflexivity.
Qed.

Lemma stoppedSources_app (t1 t2 : list effect) :
  stoppedSources (t1 ++ t2) = stoppedSources t1 ++ stoppedSources t2.
Proof.
  induction t1 as [|e t1 IH]; simpl; [reflexivity|].
  destruct e; simpl; rewrite IH; reflexivity.
Qed.

Lemma startedSources_stops (l : list SourceNode) :
  startedSources (map SourceStop l) = [].
Proof. induction l; simpl; auto. Qed.

Lemma startedSources_tracks (l : list Track) :
  startedSources (map TrackStop l) = [].
Proof. induction l; simpl; auto. Qed.

Lemma stopsFollowStarts_app (st : list SourceNode) (t1 t2 : list effect) :
  stopsFollowStarts st (t1 ++ t2) =
    stopsFollowStarts st t1 && stopsFollowStarts (rev (startedSources t1) ++ st) t2.
Proof.
  revert st. induction t1 as [|e t1 IH]; intros st; simpl; [reflexivity|].
  destruct e; simpl; rewrite IH; rewrite <- ?app_assoc; simpl;
    rewrite ?andb_assoc; reflexivity.
Qed.

Lemma stopsFollowStarts_stops (st : list SourceNode) (l : list SourceNode) :
  (forall s, In s l -> In s st) ->
  stopsFollowStarts st (map SourceStop l) = true.
Proof.
  induction l as [|x l IH]; intros H; simpl; [reflexivity|].
  rewrite IH by (intros s Hs; apply H; right; exact Hs).
  rewrite andb_true_r. apply existsb_exists. exists x. split.
  - apply H. left. reflexivity.
  - apply Nat.eqb_refl.
Qed.

Lemma stopsFollowStarts_tracks (st : list SourceNode) (l : list Track) :
  stopsFollowStarts st (map TrackStop l) = true.
Proof. induction l; simpl; auto. Qed.

(** Stopping the whole active set keeps the trace in order. *)
Lemma stop_all_in_order (a : App) (pre : list effect) :
  schedulerInv a ->
  startedSources pre = [] -> stopsFollowStarts (rev (startedSources (trace a))) pre = true ->
  startedSources (trace a ++ pre ++ map SourceStop (activeSourcesRef a))
    = seq 0 (createdSources a) /\
  stopsFollowStarts [] (trace a ++ pre ++ map SourceStop (activeSourcesRef a)) = true.
Proof.
  intros (Hnd & Hlt & Hst & Hord & Hcur) Hpre Hpre'.
  rewrite !startedSources_app, Hpre, startedSources_stops, !app_nil_r.
  split; [exact Hst|].
  rewrite !stopsFollowStarts_app, Hord, Hpre, !app_nil_r. simpl.
  rewrite Hpre'. simpl.
  apply stopsFollowStarts_stops. intros s Hs.
  rewrite <- in_rev, Hst. apply in_seq. specialize (Hlt s Hs). lia.
Qed.

Lemma inv_catchUp (currentTime : Q) (a : App) :
  schedulerInv a -> schedulerInv (catchUp currentTime a).
Proof.
  intros (Hnd & Hlt & Hst & Hord & Hcur). destruct a. unfold schedulerInv. fields.
  repeat split; try assumption.
  eapply Qle_trans; [exact Hcur | apply Q.le_max_l].
Qed.

Lemma set_add_fresh (x : SourceNode) (l : list SourceNode) :
  ~ In x l -> set_add x l = l ++ [x].
Proof.
  intros H. unfold set_add.
  destruct (existsb (Nat.eqb x) l) eqn:E; [|reflexivity].
  apply existsb_exists in E. destruct E as (y & Hy & Exy).
  apply Nat.eqb_eq in Exy. subst y. contradiction.
Qed.

Lemma inv_startSource (b : AudioBuffer) (a : App) :
  schedulerInv a -> schedulerInv (startSource b a).
Proof.
  intros (Hnd & Hlt & Hst & Hord & Hcur). destruct a as [cs tr li nx act se mi out inp n t].
  simpl in *.
  assert (Hfresh : ~ In n act) by (intros H; specialize (Hlt n H); lia).
  unfold schedulerInv. fields. rewrite (set_add_fresh _ _ Hfresh).
  repeat split.
  - apply NoDup_app; [exact Hnd | repeat constructor; intros [] | ].
    intros s Hs [<- | []]. contradiction.
  - intros s Hs. apply in_app_or in Hs. destruct Hs as [Hs | [<- | []]];
      [specialize (Hlt s Hs)|]; lia.
  - rewrite startedSources_app, Hst. cbn [startedSources]. rewrite seq_S. reflexivity.
  - rewrite stopsFollowStarts_app, Hord. reflexivity.
  - pose proof (duration_nonneg b). lra.
Qed.

Lemma inv_interrupt (a : App) : schedulerInv a -> schedulerInv (interrupt a).
Proof.
  intros H. pose proof H as (Hnd & Hlt & Hst & Hord & Hcur).
  destruct (@stop_all_in_order a [] H eq_refl eq_refl) as (E1 & E2).
  destruct a. unfold schedulerInv. fields.
  repeat split; try assumption; try constructor; try (intros s []).
  discriminate.
Qed.

Lemma inv_view (a b : App) :
  schedulerView a = schedulerView b -> schedulerInv a -> schedulerInv b.
Proof.
  unfold schedulerView, schedulerInv. intros [= -> -> -> ->]. auto.
Qed.

Lemma inv_handleAudio (currentTime : Q) (message : Msg.LiveServerMessage) (a : App) :
  schedulerInv a -> schedulerInv (final (handleAudio currentTime message a)).
Proof.
  intros H. unfold handleAudio.
  destruct (base64Audio message) as [[payload|]|e]; simpl; try exact H.
  destruct (truthy payload); [|exact H].
  destruct (bind (decode payload) _) as [b|e]; simpl.
  - apply inv_startSource, inv_catchUp, H.
  - apply inv_catchUp, H.
Qed.

Lemma aggregator_view (date : N) (message : Msg.LiveServerMessage) (a : App) :
  schedulerView (handleTurnComplete date message (handleTranscriptions message a))
    = schedulerView a.
Proof.
  unfold schedulerView.
  destruct (aggregator_frame date message a) as (-> & -> & -> & ->). reflexivity.
Qed.

Lemma inv_afterAudio (date : N) (message : Msg.LiveServerMessage) (a1 : App) :
  schedulerInv a1 -> schedulerInv (afterAudio date message a1).
Proof.
  intros H1. unfold afterAudio.
  assert (H2 : schedulerInv (handleTurnComplete date message
                               (handleTranscriptions message a1))).
  { eapply inv_view; [symmetry; apply aggregator_view | exact H1]. }
  unfold handleInterrupted.
  destruct (Msg.serverContent message) as [sc|]; [|exact H2].
  destruct (Msg.flag (Msg.interrupted sc)); [|exact H2].
  apply inv_interrupt, H2.
Qed.

Lemma inv_onmessage (currentTime : Q) (date : N) (message : Msg.LiveServerMessage)
    (a : App) :
  schedulerInv a -> schedulerInv (final (onmessage currentTime date message a)).
Proof.
  intros H. unfold onmessage.
  pose proof (inv_handleAudio currentTime message H) as H1.
  destruct (handleAudio currentTime message a) as [a1|e a1]; simpl in *; [|exact H1].
  apply (inv_afterAudio date message H1).
Qed.

Lemma inv_stopConversation (a : App) :
  schedulerInv a -> schedulerInv (stopConversation a).
Proof.
  intros H. pose proof H as (Hnd & Hlt & Hst & Hord & Hcur).
  pose proof (stopConversation_fields a) as (_ & _ & Hact & _).
  unfold schedulerInv. rewrite Hact, stopConversation_trace.
  set (pre := match sessionRef a with Some s => [SessionClose s] | None => [] end
              ++ match micStreamRef a with Some ts => map TrackStop ts | None => [] end).
  assert (Hpre : startedSources pre = []).
  { unfold pre. rewrite startedSources_app.
    destruct (sessionRef a), (micStreamRef a); simpl;
      rewrite ?startedSources_tracks; reflexivity. }
  assert (Hpre' : stopsFollowStarts (rev (startedSources (trace a))) pre = true).
  { unfold pre. rewrite stopsFollowStarts_app.
    destruct (sessionRef a), (micStreamRef a); simpl;
      rewrite ?stopsFollowStarts_tracks; reflexivity. }
  destruct (@stop_all_in_order a pre H Hpre Hpre') as (E1 & E2).
  replace (createdSources (stopConversation a)) with (createdSources a)
    by (destruct a as [? ? ? ? ? [?|] [?|] ? ? ? ?]; reflexivity).
  replace (nextStartTimeRef (stopConversation a)) with (nextStartTimeRef a)
    by (destruct a as [? ? ? ? ? [?|] [?|] ? ? ? ?]; reflexivity).
  unfold pre in E1, E2. rewrite <- !app_assoc in E1, E2.
  repeat split; try assumption; try constructor. intros s [].
Qed.

Lemma inv_onended (source : SourceNode) (a : App) :
  schedulerInv a -> schedulerInv (onended source a).
Proof.
  intros (Hnd & Hlt & Hst & Hord & Hcur). destruct a. unfold schedulerInv. fields.
  repeat split; try assumption.
  - apply NoDup_filter, Hnd.
  - intros s Hs. apply filter_In in Hs. apply Hlt, Hs.
Qed.

Lemma inv_act (x : action) (a : App) : schedulerInv a -> schedulerInv (act x a).
Proof.
  intros H.
  destruct x as [| stream | session | | currentTime date message | source | | | | sent date txt | | currentTime date message | date message audioBuffer];
    cbn [act].
  - eapply inv_view; [|exact H]. destruct a; reflexivity.
  - eapply inv_view; [|exact H]. destruct stream, a; reflexivity.
  - eapply inv_view; [|exact H]. destruct session, a; reflexivity.
  - eapply inv_view; [|exact H]. destruct a; reflexivity.
  - apply inv_onmessage, H.
  - apply inv_onended, H.
  - unfold onerror. apply inv_stopConversation.
    eapply inv_view; [|exact H]. destruct a; reflexivity.
  - eapply inv_view; [|exact H]. destruct a; reflexivity.
  - apply inv_stopConversation, H.
  - destruct (sendTextMessage_cases sent date txt a) as [-> | (s & ->)]; [exact H|].
    destruct H as (Hnd & Hlt & Hst & Hord & Hcur).
    destruct a. unfold schedulerInv. fields. repeat split; try assumption.
    + rewrite startedSources_app, Hst. simpl. apply app_nil_r.
    + rewrite stopsFollowStarts_app, Hord. reflexivity.
  - eapply inv_view; [|exact H]. destruct a; reflexivity.
  - destruct (act_MessageBegin_cases currentTime date message a) as [E | E];
      cbn [act] in E; rewrite E.
    + apply inv_onmessage, H.
    + apply inv_catchUp, H.
  - unfold onmessage_resume. apply inv_afterAudio, inv_startSource, H.
Qed.

Lemma inv_initial : schedulerInv initial.
Proof.
  unfold schedulerInv. simpl. repeat split; try constructor.
  - intros s [].
  - discriminate.
Qed.

Lemma run_snoc (xs : list action) (x : action) (a : App) :
  run (xs ++ [x]) a = act x (run xs a).
Proof. unfold run. rewrite fold_left_app. reflexivity. Qed.

Lemma inv_run (xs : list action) (a : App) :
  schedulerInv a -> schedulerInv (run xs a).
Proof.
  revert a. induction xs as [|x xs IH]; intros a H; [exact H|].
  simpl. apply IH, inv_act, H.
Qed.

(** In every state the component reaches from its initial one, the
    active set holds no source twice and only sources that were created,
    and the sources created are exactly the ones started, once each and
    in the order of their creation. *)
Theorem reachable_active_set (xs : list action) :
  let a := run xs initial in
  NoDup (activeSourcesRef a) /\
  (forall s, In s (activeSourcesRef a) -> (s < createdSources a)%nat) /\
  startedSources (trace a) = seq 0 (createdSources a).
Proof.
  destruct (inv_run xs inv_initial) as (Hnd & Hlt & Hst & _). auto.
Qed.

(** In every reachable state, each [stop()] recorded in the trace is on a
    source whose [start()] comes earlier in the trace: the stop loops of
    [stopConversation] and of the interruption never reach a source that
    was not started. *)
Theorem stops_follow_starts (xs : list action) :
  stopsFollowStarts [] (trace (run xs initial)) = true.
Proof.
  destruct (inv_run xs inv_initial) as (_ & _ & _ & Hord & _). exact Hord.
Qed.

(** The cursor is never negative in a reachable state. *)
Theorem cursor_nonnegative (xs : list action) :
  0 <= nextStartTimeRef (run xs initial).
Proof.
  destruct (inv_run xs inv_initial) as (_ & _ & _ & _ & Hcur). exact Hcur.
Qed.

Lemma handleAudio_cursor (currentTime : Q) (message : Msg.LiveServerMessage) (a : App) :
  nextStartTimeRef a <= nextStartTimeRef (final (handleAudio currentTime message a)).
Proof.
  unfold handleAudio.
  destruct (base64Audio message) as [[payload|]|e]; simpl; try apply Qle_refl.
  destruct (truthy payload); [|apply Qle_refl].
  destruct (bind (decode payload) _) as [b|e]; destruct a; fields.
  - pose proof (duration_nonneg b). pose proof (Q.le_max_l nextStartTimeRef0 currentTime).
    lra.
  - apply Q.le_max_l.
Qed.

Lemma afterAudio_cursor (currentTime : Q) (date : N) (message : Msg.LiveServerMessage)
    (a : App) :
  isInterrupted (currentTime, date, message) = false ->
  nextStartTimeRef (afterAudio date message a) = nextStartTimeRef a.
Proof.
  intros Hint. unfold afterAudio, isInterrupted in *.
  destruct (aggregator_frame date message a) as (_ & _ & Hc & _).
  unfold handleInterrupted.
  destruct (Msg.serverContent message) as [sc|]; [rewrite Hint|]; exact Hc.
Qed.

Lemma onmessage_cursor (currentTime : Q) (date : N) (message : Msg.LiveServerMessage)
    (a : App) :
  isInterrupted (currentTime, date, message) = false ->
  nextStartTimeRef a <= nextStartTimeRef (final (onmessage currentTime date message a)).
Proof.
  intros Hint. unfold onmessage.
  pose proof (handleAudio_cursor currentTime message a) as H.
  destruct (handleAudio currentTime message a) as [a1|e a1]; simpl in *; [|exact H].
  change (nextStartTimeRef a <= nextStartTimeRef (afterAudio date message a1)).
  rewrite (afterAudio_cursor currentTime date message a1 Hint). exact H.
Qed.

Lemma startSource_cursor (b : AudioBuffer) (a : App) :
  nextStartTimeRef (startSource b a) = nextStartTimeRef a + duration b.
Proof. destruct a. reflexivity. Qed.

Lemma act_cursor_le (x : action) (a : App) :
  interrupts x = false ->
  nextStartTimeRef a <= nextStartTimeRef (act x a).
Proof.
  intros Hint.
  destruct x as [| stream | session | | currentTime date message | source | | | | sent date txt | | currentTime date message | date message audioBuffer];
    cbn [act interrupts] in *;
    try (destruct a; apply Qle_refl).
  - destruct stream, a; apply Qle_refl.
  - destruct session, a; apply Qle_refl.
  - apply onmessage_cursor, Hint.
  - destruct a as [? ? ? ? ? [?|] [?|] ? ? ? ?]; apply Qle_refl.
  - destruct a as [? ? ? ? ? [?|] [?|] ? ? ? ?]; apply Qle_refl.
  - destruct (sendTextMessage_cases sent date txt a) as [-> | (s & ->)];
      [apply Qle_refl | destruct a; apply Qle_refl].
  - destruct (act_MessageBegin_cases currentTime date message a) as [E | E];
      cbn [act] in E; rewrite E.
    + apply onmessage_cursor, Hint.
    + destruct a. fields. apply Q.le_max_l.
  - unfold onmessage_resume.
    rewrite (afterAudio_cursor 0 date message _ Hint), startSource_cursor.
    pose proof (duration_nonneg audioBuffer). lra.
Qed.

Lemma run_cursor_le (xs : list action) (a : App) :
  forallb (fun x => negb (interrupts x)) xs = true ->
  nextStartTimeRef a <= nextStartTimeRef (run xs a).
Proof.
  revert a. induction xs as [|x xs IH]; intros a H; [apply Qle_refl|].
  simpl in H. apply andb_true_iff in H. destruct H as [Hx Hxs].
  apply negb_true_iff in Hx. simpl.
  eapply Qle_trans; [apply (act_cursor_le x a Hx) | apply IH, Hxs].
Qed.

(** The cursor moves backward only on a message with the interrupted
    flag: no other action lowers it. *)
Theorem cursor_monotone (x : action) (a : App) :
  interrupts x = false ->
  nextStartTimeRef a <= nextStartTimeRef (act x a).
Proof.
  intros Hint. apply act_cursor_le. exact Hint.
Qed.

Lemma cursor_monotone_witness :
  nextStartTimeRef liveSession
    <= nextStartTimeRef (act (Message 9 0 (audioMessage (str "AAAAAA=="))) liveSession).
Proof. apply cursor_monotone. reflexivity. Defined.

Lemma scheduledStarts_stops (l : list SourceNode) :
  scheduledStarts (map SourceStop l) = [].
Proof. induction l; simpl; auto. Qed.

Lemma afterAudio_trace (date : N) (message : Msg.LiveServerMessage) (a : App) :
  exists stops, trace (afterAudio date message a) = trace a ++ map SourceStop stops.
Proof.
  unfold afterAudio.
  destruct (aggregator_frame date message a) as (Ht & _).
  unfold handleInterrupted.
  destruct (Msg.serverContent message) as [sc|].
  2:{ exists []. rewrite Ht. symmetry. apply app_nil_r. }
  destruct (Msg.flag (Msg.interrupted sc)).
  - destruct (interrupt_spec (handleTurnComplete date message
                                (handleTranscriptions message a))) as (-> & _).
    rewrite Ht. eexists. reflexivity.
  - exists []. rewrite Ht. symmetry. apply app_nil_r.
Qed.

Lemma afterAudio_starts (date : N) (message : Msg.LiveServerMessage) (a : App) :
  scheduledStarts (trace (afterAudio date message a)) = scheduledStarts (trace a).
Proof.
  destruct (afterAudio_trace date message a) as (stops & ->).
  rewrite scheduledStarts_app, scheduledStarts_stops. apply app_nil_r.
Qed.

(** When a message starts its source.  A handler that ends in its first
    stretch starts none.  A handler that reaches the [await] starts
    exactly one when it resumes, at the cursor as it is then, whatever
    ran in between; unless an action with the interrupted flag ran in
    between, that start is at least the output clock the handler read
    and at least the cursor the message found.  The handler in one piece
    is the case of nothing in between. *)
Theorem source_start_time (currentTime : Q) (date : N)
    (message : Msg.LiveServerMessage) (a : App) :
  match onmessage_begin currentTime date message a with
  | Finished o => scheduledStarts (trace (final o)) = scheduledStarts (trace a)
  | Awaiting audioBuffer a1 =>
      onmessage currentTime date message a
        = Returned (onmessage_resume date message audioBuffer a1) /\
      forall (between : list action) (date' : N),
        let a2 := run between a1 in
        let a3 := onmessage_resume date' message audioBuffer a2 in
        (exists stops,
           trace a3 =
             trace a2
             ++ SourceStart (createdSources a2) (nextStartTimeRef a2) audioBuffer
                :: map SourceStop stops) /\
        scheduledStarts (trace a3)
          = scheduledStarts (trace a2) ++ [nextStartTimeRef a2] /\
        (forallb (fun x => negb (interrupts x)) between = true ->
         currentTime <= nextStartTimeRef a2 /\
         nextStartTimeRef a <= nextStartTimeRef a2)
  end.
Proof.
  pose proof (onmessage_stretches currentTime date message a) as Hone.
  unfold onmessage_begin in *.
  assert (Hresume : forall b a1,
            nextStartTimeRef a1 = Qmax (nextStartTimeRef a) currentTime ->
            forall (between : list action) (date' : N),
              let a2 := run between a1 in
              let a3 := onmessage_resume date' message b a2 in
              (exists stops,
                 trace a3 =
                   trace a2
                   ++ SourceStart (createdSources a2) (nextStartTimeRef a2) b
                      :: map SourceStop stops) /\
              scheduledStarts (trace a3)
                = scheduledStarts (trace a2) ++ [nextStartTimeRef a2] /\
              (forallb (fun x => negb (interrupts x)) between = true ->
               currentTime <= nextStartTimeRef a2 /\
               nextStartTimeRef a <= nextStartTimeRef a2)).
  { intros b a1 Hcur between date' a2 a3.
    assert (Htr : trace (startSource b a2) =
                  trace a2 ++ [SourceStart (createdSources a2) (nextStartTimeRef a2) b])
      by (destruct a2; reflexivity).
    split; [|split].
    - unfold a3, onmessage_resume.
      destruct (afterAudio_trace date' message (startSource b a2)) as (stops & ->).
      rewrite Htr, <- app_assoc. exists stops. reflexivity.
    - unfold a3, onmessage_resume.
      rewrite afterAudio_starts, Htr, scheduledStarts_app. reflexivity.
    - intros Hno. pose proof (run_cursor_le between a1 Hno) as Hle.
      fold a2 in Hle. rewrite Hcur in Hle.
      pose proof (Q.le_max_l (nextStartTimeRef a) currentTime).
      pose proof (Q.le_max_r (nextStartTimeRef a) currentTime).
      split; lra. }
  destruct (base64Audio message) as [[payload|]|e]; cbn [final].
  - destruct (truthy payload); cbn [final]; [|apply afterAudio_starts].
    destruct (bind (decode payload) _) as [b|e]; cbn [final].
    + split; [exact Hone|]. apply Hresume. destruct a; reflexivity.
    + destruct a; reflexivity.
  - apply afterAudio_starts.
  - reflexivity.
Qed.

Lemma source_start_time_witness :
  let b := {| numberOfChannels := 1; frameCount := 2; sampleRate := 24000;
              channelData := [[toFloat 0; toFloat 0]] |} in
  let a1 := catchUp 3 liveSession in
  let a2 := run [SendText (Some TypeError) 1 (str "hi")] a1 in
  scheduledStarts (trace (onmessage_resume 0 (audioMessage (str "AAAAAA==")) b a2))
    = [3] /\
  3 <= nextStartTimeRef a2.
Proof.
  intros b a1 a2.
  pose proof (source_start_time 3 0 (audioMessage (str "AAAAAA==")) liveSession) as H.
  assert (E : onmessage_begin 3 0 (audioMessage (str "AAAAAA==")) liveSession
              = Awaiting b a1) by reflexivity.
  rewrite E in H.
  destruct H as (_ & H).
  destruct (H [SendText (Some TypeError) 1 (str "hi")] 0%N) as (_ & Hstarts & Hclock).
  split; [exact Hstarts | exact (proj1 (Hclock eq_refl))].
Defined.

(** *** Sources that play are in the active set *)

Lemma accounted_view (ended : list SourceNode) (a b : App) :
  activeSourcesRef b = activeSourcesRef a ->
  createdSources b = createdSources a ->
  stoppedSources (trace b) = stoppedSources (trace a) ->
  accounted ended a -> accounted ended b.
Proof. unfold accounted. intros -> -> ->. auto. Qed.

Lemma accounted_more (e1 e2 : list SourceNode) (a : App) :
  accounted e1 a -> accounted (e1 ++ e2) a.
Proof.
  intros H s Hs. destruct (H s Hs) as [?|[?|?]]; auto.
  right. right. apply in_or_app. auto.
Qed.

Lemma set_add_in (x : SourceNode) (l : list SourceNode) : In x (set_add x l).
Proof.
  unfold set_add. destruct (existsb (Nat.eqb x) l) eqn:E.
  - apply existsb_exists in E. destruct E as (y & Hy & Exy).
    apply Nat.eqb_eq in Exy. subst y. exact Hy.
  - apply in_or_app. right. left. reflexivity.
Qed.

Lemma accounted_handleAudio (ended : list SourceNode) (currentTime : Q)
    (message : Msg.LiveServerMessage) (a : App) :
  accounted ended a -> accounted ended (final (handleAudio currentTime message a)).
Proof.
  intros H. unfold handleAudio.
  destruct (base64Audio message) as [[payload|]|e]; simpl; try exact H.
  destruct (truthy payload); [|exact H].
  destruct (bind (decode payload) _) as [b|e]; simpl.
  - destruct a. unfold accounted in *. fields. intros s Hs.
    rewrite stoppedSources_app, app_nil_r.
    destruct (Nat.eq_dec s createdSources0) as [-> | Hne].
    + left. apply set_add_in.
    + destruct (H s ltac:(lia)) as [?|[?|?]]; auto.
      left. apply set_add_incl. assumption.
  - destruct a. exact H.
Qed.

Lemma accounted_stops (ended : list SourceNode) (a b : App) (pre : list effect) :
  createdSources b = createdSources a ->
  trace b = trace a ++ pre ++ map SourceStop (activeSourcesRef a) ->
  accounted ended a -> accounted ended b.
Proof.
  intros Hc Ht H s Hs. rewrite Hc in Hs. right.
  rewrite Ht, !stoppedSources_app, stoppedSources_stops.
  destruct (H s Hs) as [?|[?|?]]; auto.
  - left. apply in_or_app. right. apply in_or_app. auto.
  - left. apply in_or_app. auto.
Qed.

Lemma accounted_startSource (ended : list SourceNode) (b : AudioBuffer) (a : App) :
  accounted ended a -> accounted ended (startSource b a).
Proof.
  intros H. destruct a. unfold accounted in *. fields. intros s Hs.
  rewrite stoppedSources_app, app_nil_r.
  destruct (Nat.eq_dec s createdSources0) as [-> | Hne].
  - left. apply set_add_in.
  - destruct (H s ltac:(lia)) as [?|[?|?]]; auto.
    left. apply set_add_incl. assumption.
Qed.

Lemma accounted_afterAudio (ended : list SourceNode) (date : N)
    (message : Msg.LiveServerMessage) (a1 : App) :
  accounted ended a1 -> accounted ended (afterAudio date message a1).
Proof.
  intros H1. unfold afterAudio.
  destruct (aggregator_frame date message a1) as (Ht & Ha & _ & Hc).
  assert (H2 : accounted ended (handleTurnComplete date message
                                  (handleTranscriptions message a1))).
  { eapply accounted_view; [exact Ha | exact Hc | rewrite Ht; reflexivity | exact H1]. }
  unfold handleInterrupted.
  destruct (Msg.serverContent message) as [sc|]; [|exact H2].
  destruct (Msg.flag (Msg.interrupted sc)); [|exact H2].
  eapply (@accounted_stops ended _ _ []); [| |exact H2].
  - destruct (handleTurnComplete _ _ _); reflexivity.
  - apply interrupt_spec.
Qed.

Lemma accounted_onmessage (ended : list SourceNode) (currentTime : Q) (date : N)
    (message : Msg.LiveServerMessage) (a : App) :
  accounted ended a ->
  accounted ended (final (onmessage currentTime date message a)).
Proof.
  intros H. unfold onmessage.
  pose proof (accounted_handleAudio currentTime message H) as H1.
  destruct (handleAudio currentTime message a) as [a1|e a1]; simpl in *; [|exact H1].
  destruct (aggregator_frame date message a1) as (Ht & Ha & _ & Hc).
  assert (H2 : accounted ended (handleTurnComplete date message
                                  (handleTranscriptions message a1))).
  { eapply accounted_view; [exact Ha | exact Hc | rewrite Ht; reflexivity | exact H1]. }
  unfold handleInterrupted.
  destruct (Msg.serverContent message) as [sc|]; [|exact H2].
  destruct (Msg.flag (Msg.interrupted sc)); [|exact H2].
  eapply (@accounted_stops ended _ _ []); [| |exact H2].
  - destruct (handleTurnComplete _ _ _); reflexivity.
  - apply interrupt_spec.
Qed.

Lemma accounted_stopConversation (ended : list SourceNode) (a : App) :
  accounted ended a -> accounted ended (stopConversation a).
Proof.
  intros H.
  eapply (@accounted_stops ended a _
            (match sessionRef a with Some s => [SessionClose s] | None => [] end
             ++ match micStreamRef a with Some ts => map TrackStop ts | None => [] end));
    [| |exact H].
  - destruct a as [? ? ? ? ? [?|] [?|] ? ? ? ?]; reflexivity.
  - rewrite stopConversation_trace. rewrite <- (app_assoc _ _ (map SourceStop _)).
    reflexivity.
Qed.

Lemma accounted_act (ended : list SourceNode) (x : action) (a : App) :
  accounted ended a -> accounted (ended ++ endedSources [x]) (act x a).
Proof.
  intros H.
  destruct x as [| stream | session | | currentTime date message | source | | | | sent date txt | | currentTime date message | date message audioBuffer];
    cbn [act endedSources]; rewrite ?app_nil_r.
  - eapply accounted_view; [| | |exact H]; destruct a; reflexivity.
  - eapply accounted_view; [| | |exact H]; destruct stream, a; reflexivity.
  - eapply accounted_view; [| | |exact H]; destruct session, a; reflexivity.
  - eapply accounted_view; [| | |exact H]; destruct a; reflexivity.
  - apply accounted_onmessage, H.
  - destruct a. unfold accounted in *. fields. intros s Hs.
    destruct (H s Hs) as [Hin|[?|?]].
    + destruct (Nat.eq_dec source s) as [-> | Hne].
      * right. right. apply in_or_app. right. left. reflexivity.
      * left. unfold set_delete. apply filter_In. split; [exact Hin|].
        apply negb_true_iff, Nat.eqb_neq, Hne.
    + auto.
    + right. right. apply in_or_app. auto.
  - unfold onerror. apply accounted_stopConversation.
    eapply accounted_view; [| | |exact H]; destruct a; reflexivity.
  - eapply accounted_view; [| | |exact H]; destruct a; reflexivity.
  - apply accounted_stopConversation, H.
  - destruct (sendTextMessage_cases sent date txt a) as [-> | (s & ->)]; [exact H|].
    eapply accounted_view; [| | |exact H]; destruct a; fields; try reflexivity.
    rewrite stoppedSources_app. apply app_nil_r.
  - eapply accounted_view; [| | |exact H]; destruct a; reflexivity.
  - destruct (act_MessageBegin_cases currentTime date message a) as [E | E];
      cbn [act] in E; rewrite E.
    + apply accounted_onmessage, H.
    + eapply accounted_view; [| | |exact H]; destruct a; reflexivity.
  - unfold onmessage_resume. apply accounted_afterAudio, accounted_startSource, H.
Qed.

Lemma endedSources_app (xs ys : list action) :
  endedSources (xs ++ ys) = endedSources xs ++ endedSources ys.
Proof.
  induction xs as [|x xs IH]; simpl; [reflexivity|].
  destruct x; simpl; rewrite IH; reflexivity.
Qed.

Lemma accounted_run (xs : list action) : accounted (endedSources xs) (run xs initial).
Proof.
  induction xs as [|x xs IH] using rev_ind.
  - intros s Hs. simpl in Hs. lia.
  - rewrite run_snoc, endedSources_app. apply accounted_act, IH.
Qed.

(** Whatever has happened, a source that was started, was not stopped
    and has not ended is in the active set: nothing plays outside the
    set that [stopConversation] and the interruption stop. *)
Theorem playing_sources_are_active (xs : list action) (s : SourceNode) :
  In s (startedSources (trace (run xs initial))) ->
  ~ In s (stoppedSources (trace (run xs initial))) ->
  ~ In s (endedSources xs) ->
  In s (activeSourcesRef (run xs initial)).
Proof.
  intros Hstarted Hstopped Hended.
  destruct (inv_run xs inv_initial) as (_ & _ & Hst & _).
  rewrite Hst in Hstarted. apply in_seq in Hstarted.
  pose proof (accounted_run xs) as Hacc.
  destruct (Hacc s ltac:(lia)) as [?|[?|?]];
    [assumption | contradiction | contradiction].
Qed.

End SchedulerInvariant.

Lemma playing_sources_are_active_witness :
  In 0%nat (activeSourcesRef
              (run [Message 3 0 (audioMessage (str "AAAAAA=="))] initial)).
Proof.
  apply playing_sources_are_active.
  - vm_compute. auto.
  - vm_compute. auto.
  - vm_compute. auto.
Defined.

(** ** The life of a session *)

Section SessionLife.

Ltac fields :=
  cbv [startSource catchUp interrupt onended createBufferSource perform
       set_nextStartTime set_activeSources set_session set_micStream
       set_outputTranscription set_inputTranscription setConnectionState
       setTranscriptions setIsListening] in *;
  cbn [final connectionState transcriptions isListening nextStartTimeRef
       activeSourcesRef sessionRef micStreamRef currentOutputTranscriptionRef
       currentInputTranscriptionRef createdSources trace] in *.

Lemma afterAudio_transcriptions (date : N) (message : Msg.LiveServerMessage)
    (a1 : App) :
  exists l, transcriptions (afterAudio date message a1) = transcriptions a1 ++ l.
Proof.
  unfold afterAudio.
  destruct (handleInterrupted_frame message
              (handleTurnComplete date message (handleTranscriptions message a1)))
    as (-> & _).
  destruct (handleTranscriptions_buffers message a1 a1 eq_refl eq_refl)
    as (_ & _ & Htr').
  unfold handleTurnComplete.
  destruct (Msg.serverContent message) as [sc|].
  2:{ exists []. rewrite app_nil_r. exact Htr'. }
  destruct (Msg.flag (Msg.turnComplete sc)).
  - destruct (completeTurn_spec date (handleTranscriptions message a1)) as (-> & _).
    rewrite Htr'. eexists. reflexivity.
  - exists []. rewrite app_nil_r. exact Htr'.
Qed.

Lemma onmessage_transcriptions (currentTime : Q) (date : N)
    (message : Msg.LiveServerMessage) (a : App) :
  exists l, transcriptions (final (onmessage currentTime date message a))
            = transcriptions a ++ l.
Proof.
  unfold onmessage.
  pose proof (handleAudio_frame currentTime message a) as (_ & Htr & _).
  destruct (handleAudio currentTime message a) as [a1|e a1]; simpl in *.
  2:{ exists []. rewrite app_nil_r. exact Htr. }
  destruct (afterAudio_transcriptions date message a1) as (l & E).
  exists l. unfold afterAudio in E. rewrite E, Htr. reflexivity.
Qed.

(** The transcript is append-only: [clearHistory] empties it, and every
    other action keeps the entries there are, in their order, adding at
    most some at the end. *)
Theorem transcript_append_only (x : action) (a : App) :
  match x with
  | ClearHistory => transcriptions (act x a) = []
  | _ => exists l, transcriptions (act x a) = transcriptions a ++ l
  end.
Proof.
  destruct x as [| stream | session | | currentTime date message | source | | | | sent date txt | | currentTime date message | date message audioBuffer];
    cbn [act];
    try (exists []; rewrite app_nil_r; destruct a; reflexivity).
  - exists []. rewrite app_nil_r. destruct stream, a; reflexivity.
  - exists []. rewrite app_nil_r. destruct session, a; reflexivity.
  - apply onmessage_transcriptions.
  - exists []. rewrite app_nil_r.
    destruct a as [? ? ? ? ? [?|] [?|] ? ? ? ?]; reflexivity.
  - exists []. rewrite app_nil_r.
    destruct a as [? ? ? ? ? [?|] [?|] ? ? ? ?]; reflexivity.
  - destruct (sendTextMessage_cases sent date txt a) as [-> | (s & ->)].
    + exists []. rewrite app_nil_r. reflexivity.
    + eexists. destruct a. reflexivity.
  - destruct a. reflexivity.
  - destruct (act_MessageBegin_cases currentTime date message a) as [E | E];
      cbn [act] in E; rewrite E.
    + apply onmessage_transcriptions.
    + exists []. rewrite app_nil_r. destruct a; reflexivity.
  - unfold onmessage_resume.
    destruct (afterAudio_transcriptions date message (startSource audioBuffer a))
      as (l & ->).
    exists l. destruct a. reflexivity.
Qed.

Lemma afterAudio_connectionState (date : N) (message : Msg.LiveServerMessage)
    (a : App) :
  connectionState (afterAudio date message a) = connectionState a.
Proof.
  unfold afterAudio, handleInterrupted, handleTurnComplete, handleTranscriptions,
    completeTurn.
  destruct (Msg.serverContent message) as [sc|]; [|reflexivity].
  destruct (Msg.flag (Msg.interrupted sc)), (Msg.flag (Msg.turnComplete sc)),
    (Msg.outputTranscription sc), (Msg.inputTranscription sc);
    try destruct (truthy _ || truthy _); reflexivity.
Qed.

(** The actions that leave the connection state alone. *)
Lemma act_connectionState (x : action) (a : App) :
  match x with
  | Message _ _ _ | Ended _ | SendText _ _ _ | ClearHistory
  | MessageBegin _ _ _ | MessageResume _ _ _ =>
      connectionState (act x a) = connectionState a
  | _ => True
  end.
Proof.
  destruct x as [| stream | session | | currentTime date message | source | | | | sent date txt | | currentTime date message | date message audioBuffer];
    cbn [act]; try exact I.
  - apply onmessage_connectionState.
  - destruct a; reflexivity.
  - destruct (sendTextMessage_cases sent date txt a) as [-> | (s & ->)];
      [reflexivity | destruct a; reflexivity].
  - destruct a; reflexivity.
  - destruct (act_MessageBegin_cases currentTime date message a) as [E | E];
      cbn [act] in E; rewrite E.
    + apply onmessage_connectionState.
    + destruct a; reflexivity.
  - unfold onmessage_resume. rewrite afterAudio_connectionState.
    destruct a; reflexivity.
Qed.

(** How the connection state is entered: [CONNECTED] only through
    [onopen], [ERROR] only through a rejected [getUserMedia] or connect
    inside [startConversation]; the transport's [onerror], [onclose] and
    [stopConversation] all end in [DISCONNECTED]. *)
Theorem connection_state_entries (x : action) (a : App) :
  (connectionState (act x a) = CONNECTED ->
   x = Open \/ connectionState a = CONNECTED) /\
  (connectionState (act x a) = ERROR ->
   x = StartStream None \/ x = StartSession None \/ connectionState a = ERROR) /\
  (x = Error \/ x = Close \/ x = Stop -> connectionState (act x a) = DISCONNECTED).
Proof.
  assert (Hstop : forall b, connectionState (stopConversation b) = DISCONNECTED).
  { intros b. apply stopConversation_fields. }
  pose proof (act_connectionState x a) as Hsame.
  destruct x as [| stream | session | | currentTime date message | source | | | | sent date txt | | currentTime date message | date message audioBuffer];
    try (rewrite Hsame; repeat split; auto; intros [H|[H|H]]; discriminate H);
    cbn [act].
  - repeat split; try discriminate. intros [H|[H|H]]; discriminate H.
  - destruct stream, a; simpl; repeat split; auto; try discriminate;
      intros [H|[H|H]]; discriminate H.
  - destruct session, a; simpl; repeat split; auto; try discriminate;
      intros [H|[H|H]]; discriminate H.
  - repeat split; auto; try discriminate. intros [H|[H|H]]; discriminate H.
  - unfold onerror. rewrite Hstop. repeat split; discriminate.
  - repeat split; discriminate.
  - rewrite Hstop. repeat split; discriminate.
Qed.

Lemma connection_state_entries_witness :
  connectionState (act Error liveSession) = DISCONNECTED.
Proof.
  destruct (connection_state_entries Error liveSession) as (_ & _ & H).
  apply H. left. reflexivity.
Defined.

(** A start that succeeds, the socket opening before the session promise
    resolves or after it: the state is [CONNECTED], the refs hold the
    session and the stream, and no call on a session, a track or a source
    was made.  A text sent next reaches the call of [send] on that
    session: when the call throws, as on a [Session] without [send], the
    exception leaves [sendTextMessage] with the state as it was, nothing
    sent and nothing appended. *)
Theorem start_then_send (tracks : list Track) (session : Session)
    (date : N) (t : jsstring) (a : App) :
  let started :=
    run [StartBegin; StartStream (Some tracks); Open; StartSession (Some session)] a in
  run [StartBegin; StartStream (Some tracks); StartSession (Some session); Open] a
    = started /\
  connectionState started = CONNECTED /\
  isListening started = true /\
  sessionRef started = Some session /\
  micStreamRef started = Some tracks /\
  trace started = trace a /\
  transcriptions started = transcriptions a /\
  (forall e, sendTextMessage (Some e) date t started = Threw e started).
Proof.
  destruct a. repeat split.
Qed.

(** A start that fails.  The first stretch leaves a context in each of
    the two audio-context refs, keeping the one a ref already holds.
    When [getUserMedia] is refused the state is [ERROR], and the stream
    ref, the session ref and the trace are as before.  When connect is
    refused after the microphone was granted the state is [ERROR] too,
    but the stream stays in the ref and none of its tracks is stopped;
    [stopConversation] would stop them. *)
Theorem start_failures (tracks : list Track) (a : App) (c : AudioContexts) :
  let c' := snd (startConversation_first (a, c)) in
  let denied := run [StartBegin; StartStream None] a in
  let refused := run [StartBegin; StartStream (Some tracks); StartSession None] a in
  fst (startConversation_first (a, c)) = act StartBegin a /\
  c' = startConversation_contexts c /\
  audioContextInRef c' <> None /\
  audioContextOutRef c' <> None /\
  (forall ctx, audioContextInRef c = Some ctx -> audioContextInRef c' = Some ctx) /\
  (forall ctx, audioContextOutRef c = Some ctx -> audioContextOutRef c' = Some ctx) /\
  startConversation_contexts c' = c' /\
  connectionState denied = ERROR /\
  micStreamRef denied = micStreamRef a /\
  sessionRef denied = sessionRef a /\
  trace denied = trace a /\
  connectionState refused = ERROR /\
  micStreamRef refused = Some tracks /\
  trace refused = trace a /\
  (forall t, In t tracks -> In (TrackStop t) (trace (act Stop refused))).
Proof.
  intros c' denied refused.
  split; [reflexivity|]. split; [reflexivity|].
  assert (Hctx : audioContextInRef c' <> None /\ audioContextOutRef c' <> None /\
                 (forall ctx, audioContextInRef c = Some ctx ->
                              audioContextInRef c' = Some ctx) /\
                 (forall ctx, audioContextOutRef c = Some ctx ->
                              audioContextOutRef c' = Some ctx) /\
                 startConversation_contexts c' = c').
  { subst c'. destruct c as [[i|] [o|]]; cbn; repeat split;
      try discriminate; try (intros ctx E; exact E). }
  destruct Hctx as (H1 & H2 & H3 & H4 & H5).
  split; [exact H1|]. split; [exact H2|]. split; [exact H3|].
  split; [exact H4|]. split; [exact H5|].
  subst denied refused.
  destruct a as [cs tr li nx ac [s|] mi out inp n t]; simpl;
    repeat split; intros t0 Ht0; unfold stopConversation; fields;
    rewrite <- ?app_assoc; apply in_or_app; right;
    repeat (try (apply in_or_app; left; apply in_map; exact Ht0); apply in_or_app; right);
    try (apply in_or_app; left; apply in_map; exact Ht0).
Qed.

(** [stopConversation] resets neither the cursor nor the pending
    buffers: the fragments of an unfinished turn stay, and the first chunk
    after a stop starts at the maximum of the old cursor and the clock. *)
Theorem stop_keeps_cursor_and_buffers (chunk : Q * AudioBuffer) (a : App) :
  nextStartTimeRef (stopConversation a) = nextStartTimeRef a /\
  currentInputTranscriptionRef (stopConversation a) = currentInputTranscriptionRef a /\
  currentOutputTranscriptionRef (stopConversation a) = currentOutputTranscriptionRef a /\
  transcriptions (stopConversation a) = transcriptions a /\
  startsOf [chunk] (stopConversation a) = [Qmax (nextStartTimeRef a) (fst chunk)].
Proof.
  assert (Hc : nextStartTimeRef (stopConversation a) = nextStartTimeRef a)
    by (destruct a as [? ? ? ? ? [?|] [?|] ? ? ? ?]; reflexivity).
  repeat split; try (destruct a as [? ? ? ? ? [?|] [?|] ? ? ? ?]; reflexivity).
  rewrite startsOf_cons, startsOf_nil, Hc. reflexivity.
Qed.

(** A second interruption right after one changes nothing: no source is
    stopped twice and the cursor stays at 0. *)
Theorem interrupted_twice (t1 t2 : Q) (d1 d2 : N) (a : App) :
  let once := final (onmessage t1 d1 interruptedMessage a) in
  final (onmessage t2 d2 interruptedMessage once) = once /\
  once = interrupt a.
Proof.
  destruct a. split; [|reflexivity].
  cbv [onmessage handleAudio base64Audio interruptedMessage contentMessage
       and_then handleTranscriptions handleTurnComplete handleInterrupted
       Msg.serverContent Msg.modelTurn Msg.outputTranscription
       Msg.inputTranscription Msg.turnComplete Msg.interrupted Msg.flag final].
  fields. cbn [map]. rewrite app_nil_r. reflexivity.
Qed.

End SessionLife.

(** ** A turn made of fragments *)

Section Turns.

Lemma runMessages_app (l1 l2 : list event) (a : App) :
  runMessages (l1 ++ l2) a = runMessages l1 a >>= runMessages l2.
Proof.
  revert a. induction l1 as [|ev l1 IH]; intros a; [reflexivity|].
  simpl. destruct (handle ev a) as [a1|e a1]; simpl; [apply IH | reflexivity].
Qed.

Lemma handle_fragment (f : Q * N * Role * jsstring) (a : App) :
  let '(_, _, speaker, delta) := f in
  handle (fragmentEvent f) a =
    Returned
      match speaker with
      | user =>
          set_inputTranscription (currentInputTranscriptionRef a ++ delta) a
      | model =>
          set_outputTranscription (currentOutputTranscriptionRef a ++ delta) a
      end.
Proof. destruct f as [[[t d] [|]] delta]; reflexivity. Qed.

(** A run of fragment messages joins the fragments of each speaker onto
    that speaker's buffer, in arrival order, and commits nothing. *)
Lemma fragments_run (fs : list (Q * N * Role * jsstring)) (a : App) :
  exists a1,
    runMessages (map fragmentEvent fs) a = Returned a1 /\
    currentInputTranscriptionRef a1 = currentInputTranscriptionRef a ++ spoken user fs /\
    currentOutputTranscriptionRef a1 = currentOutputTranscriptionRef a ++ spoken model fs /\
    transcriptions a1 = transcriptions a.
Proof.
  revert a. induction fs as [|f fs IH]; intros a.
  - exists a. simpl. rewrite !app_nil_r. auto.
  - pose proof (handle_fragment f a) as Hf.
    destruct f as [[[t d] speaker] delta]. cbn [map runMessages].
    rewrite Hf. cbn [and_then].
    destruct speaker;
      match goal with
      | |- context [runMessages _ ?b] => destruct (IH b) as (a1 & -> & Hi & Ho & Ht)
      end;
      exists a1; destruct a; cbn in Hi, Ho, Ht |- *;
      rewrite Hi, Ho, Ht, <- ?app_assoc; auto.
Qed.

(** A turn: any number of fragment messages, of either speaker in any
    order, and then the turn-complete message, all handled without a
    throw.  The transcript grows by the user entry, made of the input
    fragments joined and trimmed, and then the model entry, made of the
    output fragments, each only if its text is not empty; the user entry
    comes first whoever spoke first; the buffers end empty. *)
Theorem turn_of_fragments (fs : list (Q * N * Role * jsstring))
    (currentTime : Q) (date : N) (a : App) :
  let userText := trim (currentInputTranscriptionRef a ++ spoken user fs) in
  let modelText := trim (currentOutputTranscriptionRef a ++ spoken model fs) in
  exists a',
    runMessages (map fragmentEvent fs ++ [(currentTime, date, turnCompleteMessage)]) a
      = Returned a' /\
    transcriptions a' =
      transcriptions a
      ++ (if truthy userText
          then [{| role := user; text := userText; timestamp := date |}] else [])
      ++ (if truthy modelText
          then [{| role := model; text := modelText; timestamp := date |}] else []) /\
    currentInputTranscriptionRef a' = [] /\
    currentOutputTranscriptionRef a' = [].
Proof.
  intros userText modelText.
  destruct (fragments_run fs a) as (a1 & Hrun & Hi & Ho & Ht).
  exists (completeTurn date a1). split.
  - rewrite runMessages_app, Hrun. reflexivity.
  - destruct (completeTurn_spec date a1) as (E & Ei & Eo).
    rewrite E, Ei, Eo, Hi, Ho, Ht. auto.
Qed.

End Turns.

(** ** When the message handler throws *)

Section HandlerThrows.

(** The handler throws exactly when the model turn has no [parts], or
    when a non-empty payload does not decode to a buffer.  In the first
    case the state is untouched; in the second only the cursor has moved,
    up to the output clock.  Either way the fragments, the turn boundary
    and the interruption of that message are not processed. *)
Theorem onmessage_throws_iff (currentTime : Q) (date : N)
    (message : Msg.LiveServerMessage) (a a1 : App) (e : exn) :
  onmessage currentTime date message a = Threw e a1 <->
  (base64Audio message = Throw e /\ a1 = a) \/
  (exists payload,
     base64Audio message = Ok (Some payload) /\ truthy payload = true /\
     bind (decode payload) (fun bytes => decodeAudioData bytes 24000 1) = Throw e /\
     a1 = catchUp currentTime a).
Proof.
  unfold onmessage, handleAudio. split.
  - destruct (base64Audio message) as [[payload|]|e0]; simpl.
    + destruct (truthy payload) eqn:Et; simpl; [|discriminate].
      destruct (bind (decode payload) _) as [b|e1] eqn:Ed; simpl; [discriminate|].
      intros [= <- <-]. right. exists payload. auto.
    + discriminate.
    + intros [= <- <-]. left. auto.
  - intros [(-> & ->) | (payload & -> & -> & -> & ->)]; reflexivity.
Qed.

Lemma onmessage_throws_iff_witness :
  onmessage 5 0 (audioMessage (str "AAAA")) liveSession
    = Threw RangeError (catchUp 5 liveSession).
Proof.
  apply onmessage_throws_iff. right. exists (str "AAAA").
  repeat split; reflexivity.
Defined.

End HandlerThrows.

(** ** Bytes seen as samples *)

Section ByteView.

Lemma int16_bytes_of_bytes (lo hi : byte) :
  int16_bytes (int16_of_bytes lo hi) = [lo; hi].
Proof.
  unfold int16_bytes, int16_of_bytes.
  pose proof (Byte.to_N_bounded lo) as Hlo. pose proof (Byte.to_N_bounded hi) as Hhi.
  set (l := Byte.to_N lo) in *. set (h := Byte.to_N hi) in *.
  assert (E : Z.to_N ((if (32768 <=? Z.of_N l + 256 * Z.of_N h)%Z
                       then (Z.of_N l + 256 * Z.of_N h - 65536)%Z
                       else (Z.of_N l + 256 * Z.of_N h)%Z) mod 65536)
              = (l + 256 * h)%N).
  { destruct (32768 <=? _)%Z eqn:C;
      [apply Z.leb_le in C | apply Z.leb_gt in C]; divmod_lia. }
  rewrite E.
  replace ((l + 256 * h) mod 256)%N with l by divmod_lia.
  replace ((l + 256 * h) / 256)%N with h by divmod_lia.
  unfold l, h. rewrite !uint8_of_to_N. reflexivity.
Qed.

(** The 16-bit view loses nothing: the samples read from a byte array of
    even length lay out as that byte array again. *)
Theorem bytes_int16s_roundtrip (data : list byte) (l : list Z) :
  int16s_of_bytes data = Ok l -> bytes_of_int16s l = data.
Proof.
  revert l. induction data as [|a|a b rest IH] using list_ind2; intros l.
  - intros [= <-]. reflexivity.
  - discriminate.
  - cbn [int16s_of_bytes].
    destruct (int16s_of_bytes rest) as [l'|e]; cbn [bind]; [|discriminate].
    intros [= <-]. unfold bytes_of_int16s in *. cbn [flat_map].
    rewrite int16_bytes_of_bytes, (IH l' eq_refl). reflexivity.
Qed.

Lemma bytes_int16s_roundtrip_witness :
  bytes_of_int16s [-1; 256]%Z = [xff; xff; x00; x01].
Proof. apply bytes_int16s_roundtrip. reflexivity. Defined.

End ByteView.

Lemma start_failures_witness :
  In (TrackStop 4%nat)
     (trace (act Stop (run [StartBegin; StartStream (Some [4%nat]); StartSession None]
                           initial))) /\
  audioContextOutRef
    (startConversation_contexts
       {| audioContextInRef := None; audioContextOutRef := Some 48000%positive |})
  = Some 48000%positive.
Proof.
  destruct (start_failures [4%nat] initial
              {| audioContextInRef := None; audioContextOutRef := Some 48000%positive |})
    as (_ & _ & _ & _ & _ & Hkeep & _ & _ & _ & _ & _ & _ & _ & _ & H).
  split; [apply H; left; reflexivity | apply Hkeep; reflexivity].
Defined.

(** ** An interruption while a handler is suspended *)

Section SuspendedHandler.

Lemma onmessage_begin_awaiting (currentTime : Q) (date : N)
    (message : Msg.LiveServerMessage) (audioBuffer : AudioBuffer) (a a1 : App) :
  onmessage_begin currentTime date message a = Awaiting audioBuffer a1 ->
  a1 = catchUp currentTime a.
Proof.
  destruct (onmessage_begin_cases currentTime date message a) as [-> | (b & ->)].
  - discriminate.
  - intros [= _ <-]. reflexivity.
Qed.

(** The chunk of a message handled after an interruption, with nothing
    in between its two stretches: its source starts at the maximum of 0
    and the output clock the handler read. *)
Lemma chunk_after_interruption (currentTime : Q) (date : N)
    (message : Msg.LiveServerMessage) (audioBuffer : AudioBuffer) (a a1 : App) :
  nextStartTimeRef a = 0 ->
  onmessage_begin currentTime date message a = Awaiting audioBuffer a1 ->
  onmessage currentTime date message a
    = Returned (onmessage_resume date message audioBuffer a1) /\
  scheduledStarts (trace (onmessage_resume date message audioBuffer a1))
    = scheduledStarts (trace a) ++ [Qmax 0 currentTime].
Proof.
  intros Hcur Hbegin. split.
  - rewrite onmessage_stretches, Hbegin. reflexivity.
  - rewrite (onmessage_begin_awaiting _ _ _ _ Hbegin).
    unfold onmessage_resume. rewrite afterAudio_starts.
    destruct a. cbn in Hcur. subst. cbn. rewrite scheduledStarts_app. reflexivity.
Qed.


End SuspendedHandler.

